(** * pmanage: a bounded-concurrency command runner

    Shallow embedding of the two variants of the runner:
    - [src/pmanage.js], the extended variant (utilization tracking, comment
      lines, completion counter), embedded at top level;
    - [src/unnamed/part_000], the bare variant, embedded in [Module Bare].

    Conventions.
    - JavaScript numbers that hold slot counts and millisecond clock readings
      are integers here ([Z]); the one place where the program divides
      ([fin]) uses [jsnum], which keeps the non-finite results apart. The
      finite results are kept exactly ([Q]); rounding to a double keeps a
      quotient of [0 <= a <= b] within [0, 1], so the bounds proved here are
      those of the printed figure.
    - A [resolve] closure pushed on [pending_tasks] is identified with the
      index of the task whose slot promise it settles.
    - [console.log] appends a [line] to the [console] field; a [line] keeps
      the values printed, and the text they are laid out in is that of
      [getTimestamp] and [getDurationString], which are embedded on their
      own.
    - Every [new Date()] whose value reaches program state is an explicit
      argument (a clock reading in milliseconds).
    - The callback of [schedule] is cut at its two [await]s into three
      segments, each of which runs without interruption: [callback_enter]
      (inside [forEach]), [callback_resume] and [callback_settle]. The event
      loop is a list of [event]s saying which continuation runs next; an
      event that names a callback not waiting for it is no step ([None]).
      The order of events is free, which covers the order the runtime
      chooses.
    - A rejected [workload_promise] makes [await] throw; neither variant
      catches it, so the callback ends there and its promise is rejected
      with no handler. What the runtime does about an unhandled rejection
      is outside the program: a warning (Node before version 15), or the
      end of the process with exit status 1 (from version 15 on).
      [step] and [run_events] are the event loop of a process that goes
      on, so that their states include those of a process that is ended;
      [node_step] and [node_run] take the policy as a parameter.
    - [getDurationString] is embedded on whole numbers of the safe range
      ([safe_integer]), where the arithmetic on doubles is exact.
    - The values of the [--NAME=value] bindings are strings. *)

From Stdlib Require Import ZArith QArith String Ascii List Lia DecimalString.
From stdpp Require Import base option list strings gmap.

Close Scope Q_scope.
Local Open Scope Z_scope.

(** ** Shared vocabulary *)

Abbreviation resolver := nat (only parsing).
Abbreviation time := Z (only parsing).

(** Result of a floating-point expression, up to what the claims need:
    a finite value kept exactly, NaN, or an infinity of either sign. *)
Inductive jsnum :=
| JFinite (q : Q)
| JInfinite
| JNaN.

(** [a / b] on two integer-valued numbers. *)
Definition js_div (a b : Z) : jsnum :=
  if b =? 0 then (if a =? 0 then JNaN else JInfinite)
  else JFinite (inject_Z a / inject_Z b)%Q.

(** [x * 100]. *)
Definition js_mul100 (x : jsnum) : jsnum :=
  match x with
  | JFinite q => JFinite (q * 100)%Q
  | JInfinite => JInfinite
  | JNaN => JNaN
  end.

(** Lines written to the console. *)
Inductive line :=
| Text (s : string)
| Starting (i total : nat) (task : string)
| FinishedIn (i total : nat) (task : string) (seconds : Z)
| BareStarting (task : string)
| BareFinishedIn (task : string) (seconds : Z)
| CompletedIn (total_duration : Z)
| Utilization (pct : jsnum).

(** Where a task's callback stands. [Waiting]: suspended on a slot promise
    that is still pending (its resolver sits in [pending_tasks]).
    [Granted]: the [await acquireSlot()] has a settled promise, the
    continuation has not run yet. [Running]: the command was handed to
    [exec] and the callback awaits [workload_promise]. [Finished]: the
    callback ran to its end. [Failed]: [workload_promise] was rejected, the
    [await] threw and, there being no handler, the callback ended there. *)
Inductive status := Waiting | Granted | Running | Finished | Failed.

(** How [exec(task)] settles: fulfilled with the captured output, or
    rejected (non-zero exit status, failure to spawn). *)
Inductive outcome :=
| Fulfilled (stdout stderr : string)
| Rejected.

(** What the event loop does next: run the continuation of task [idx] after
    [await acquireSlot()], or deliver the settlement of its command.
    [seconds] is [end[0]] of [process.hrtime(start)]; [now] and [end_time]
    are the two clock readings a release may take. *)
Inductive event :=
| Resume (idx : nat)
| Settle (idx : nat) (o : outcome) (seconds : Z) (now end_time : time).

(** Operations on the semaphore alone, and what each one did. *)
Inductive op :=
| Acquire (r : resolver)
| Release (now end_time : time).

Inductive obs :=
| Grant (r : resolver)
| Suspend (r : resolver)
| Wake (r : resolver)
| Free.

Definition obs_acquire (r : resolver) (granted : bool) : obs :=
  if granted then Grant r else Suspend r.

Definition obs_release (woken : option resolver) : obs :=
  match woken with Some r => Wake r | None => Free end.

(** [acquire_resolve()]: the slot promise of the woken task is fulfilled. *)
Definition resolve (woken : option resolver) (procs : list status)
  : list status :=
  match woken with
  | Some r => <[r := Granted]> procs
  | None => procs
  end.

(** The three [console.log] calls guarded by [if(stdout)] / [if(stderr)]:
    an empty string is falsy. *)
Definition output_block (header text : string) : list line :=
  if String.eqb text "" then [] else [Text header; Text text; Text "==="].

(** ** Numbers and dates as text *)

(** [num.toString()] for an integer-valued number (below 1e21 in absolute
    value, where JavaScript prints plain decimal digits). *)
Definition toString (num : Z) : string :=
  NilZero.string_of_int (Z.to_int num).

(** The fields of a [Date] that [getTimestamp] reads. *)
Record date := mkDate {
  getDate : Z;
  getMonth : Z;
  getFullYear : Z;
  getHours : Z;
  getMinutes : Z;
  getSeconds : Z
}.

(** The inner function of [getTimestamp]. *)
Definition zeroPadString (num : Z) : string :=
  ((if (String.length (toString num) <? 2)%nat then "0" else "")
   ++ toString num)%string.

(** [getTimestamp], the same in both variants. *)
Definition getTimestamp (t : date) : string :=
  let date := zeroPadString (getDate t) in
  let month := zeroPadString (getMonth t + 1) in
  let year := zeroPadString (getFullYear t) in
  let hour := zeroPadString (getHours t) in
  let minute := zeroPadString (getMinutes t) in
  let second := zeroPadString (getSeconds t) in
  ("[" ++ date ++ "-" ++ month ++ "-" ++ year ++ " "
       ++ hour ++ ":" ++ minute ++ ":" ++ second ++ "]")%string.

(** The carriage return; [LF] is defined with [EOL] below. *)
Definition CR : ascii := "013"%char.

(** [stdout.replace(/(\r\n|\n|\r)/gm, '')] of [asyncExec]: at each position
    the alternatives are tried in order, and a match is dropped. *)
Fixpoint strip_breaks_from (skip : nat) (s : string) : string :=
  match s with
  | EmptyString => ""
  | String c rest =>
      match skip with
      | S k => strip_breaks_from k rest
      | O =>
          if String.prefix (String CR (String "010" "")) s then
            strip_breaks_from 1 rest
          else if Ascii.eqb c "010" then strip_breaks_from 0 rest
          else if Ascii.eqb c CR then strip_breaks_from 0 rest
          else String c (strip_breaks_from 0 rest)
      end
  end.

Definition strip_breaks (s : string) : string := strip_breaks_from 0 s.

(** [asyncExec(command)], given how [exec(command)] settles: the standard
    output without its line breaks, or the rejection passed on ([None]). *)
Definition asyncExec (o : outcome) : option string :=
  match o with
  | Fulfilled stdout _ => Some (strip_breaks stdout)
  | Rejected => None
  end.

(** The body shared by [begin()] and [uptime()]: what is printed once the
    command ([uname -a], [uptime]) has settled, [now] being the date read
    at that moment. Nothing is printed after a rejection. *)
Definition report (now : date) (o : outcome) : list line :=
  match asyncExec o with
  | Some output => [Text (getTimestamp now ++ " " ++ output)]
  | None => []
  end.

Definition begin (now : date) (o : outcome) : list line := report now o.

Definition uptime (now : date) (o : outcome) : list line := report now o.

(** ** Strings, as the workload expansion uses them *)

Definition is_upper (c : ascii) : bool :=
  (65 <=? nat_of_ascii c)%nat && (nat_of_ascii c <=? 90)%nat.

(** The longest run of [A-Z] at the head of [s]. *)
Fixpoint take_upper (s : string) : string :=
  match s with
  | String c rest => if is_upper c then String c (take_upper rest) else ""
  | EmptyString => ""
  end.

(** [line.match(/@[A-Z]+/g)], each match already without its [@]
    ([cur_define.slice(1)]); no match ([null]) is the empty list. [skip]
    counts the characters of the current match still to be passed over. *)
Fixpoint match_defines_from (skip : nat) (s : string) : list string :=
  match s with
  | EmptyString => []
  | String c rest =>
      match skip with
      | S k => match_defines_from k rest
      | O =>
          if Ascii.eqb c "@" then
            match take_upper rest with
            | EmptyString => match_defines_from 0 rest
            | name => name :: match_defines_from (String.length name) rest
            end
          else match_defines_from 0 rest
      end
  end.

Definition match_defines (s : string) : list string := match_defines_from 0 s.

(** [defines.add(d)]: a [Set] keeps the order of first insertion. *)
Definition set_add (defines : list string) (d : string) : list string :=
  if existsb (String.eqb d) defines then defines else defines ++ [d].

(** The extraction loop of [setupWorkload]. *)
Definition extract_defines (tasks : list string) : list string :=
  fold_left (fun defines line => fold_left set_add (match_defines line) defines)
            tasks [].

Fixpoint string_drop (n : nat) (s : string) : string :=
  match n, s with
  | O, _ => s
  | S k, String _ rest => string_drop k rest
  | S _, EmptyString => ""
  end.

(** [s.split(sep)] for a non-empty separator; the result always has a first
    piece. *)
Fixpoint split_from (sep : string) (skip : nat) (s : string) : list string :=
  match s with
  | EmptyString => [""]
  | String c rest =>
      match skip with
      | S k => split_from sep k rest
      | O =>
          if String.prefix sep s then
            "" :: split_from sep (String.length sep - 1) rest
          else
            match split_from sep 0 rest with
            | piece :: pieces => String c piece :: pieces
            | [] => [String c ""]
            end
      end
  end.

Definition split (sep s : string) : list string := split_from sep 0 s.

(** [os.EOL] on a POSIX host: the line feed. *)
Definition LF : ascii := "010"%char.
Definition EOL : string := String LF "".

(** [value[0] != '#']: the empty string has no first character and stays. *)
Definition not_comment (value : string) : bool :=
  match value with
  | String c _ => negb (Ascii.eqb c "#")
  | EmptyString => true
  end.

(** [tasks.pop()]. *)
Definition pop (tasks : list string) : list string := removelast tasks.

(** [v.replace(/,/g, ' ')]. *)
Fixpoint commas_to_spaces (v : string) : string :=
  match v with
  | String c rest =>
      String (if Ascii.eqb c "," then " "%char else c) (commas_to_spaces rest)
  | EmptyString => ""
  end.

(** The replacement text of [String.prototype.replace] for one match of a
    pattern without capture groups: [$$], [$&], [$`] and [$'] are
    expanded, every other character stands for itself. *)
Fixpoint expand (before matched after template : string) : string :=
  match template with
  | EmptyString => ""
  | String c t =>
      if Ascii.eqb c "$" then
        match t with
        | String d rest =>
            if Ascii.eqb d "$" then String "$" (expand before matched after rest)
            else if Ascii.eqb d "&" then
              matched ++ expand before matched after rest
            else if Ascii.eqb d "`" then
              before ++ expand before matched after rest
            else if Ascii.eqb d "'" then
              after ++ expand before matched after rest
            else String c (expand before matched after t)
        | EmptyString => String c ""
        end
      else String c (expand before matched after t)
  end.

(** [s.replace(new RegExp(pat, 'g'), template)] for a pattern that is a
    literal, non-empty text (here always [@] followed by capital letters):
    every occurrence, left to right, without overlap. [before] is the part
    of the subject already passed. *)
Fixpoint replace_from (pat template : string) (skip : nat) (before s : string)
  : string :=
  match s with
  | EmptyString => ""
  | String c rest =>
      match skip with
      | S k => replace_from pat template k (before ++ String c "") rest
      | O =>
          if String.prefix pat s then
            expand before pat (string_drop (String.length pat) s) template
            ++ replace_from pat template (String.length pat - 1)
                            (before ++ String c "") rest
          else
            String c (replace_from pat template 0 (before ++ String c "") rest)
      end
  end.

Definition replace_all (pat template s : string) : string :=
  replace_from pat template 0 "" s.

(** [define in args]. *)
Definition has_define (args : gmap string string) (define : string) : bool :=
  match args !! define with Some _ => true | None => false end.

(** The inner loop of the substitution: one global replacement per define,
    in the iteration order of the set. The loop runs after the check, so
    [args[define]] is a string. *)
Definition substitute (args : gmap string string) (defines : list string)
    (task : string) : string :=
  fold_left (fun t define =>
               let define_val := commas_to_spaces (default "" (args !! define)) in
               replace_all ("@" ++ define) define_val t)
            defines task.

(** [usage()]; [argv1] is [process.argv[1]]. *)
Definition usage (argv1 : string) : list line :=
  [Text ("usage: " ++ argv1 ++ " -w workload [OPTIONS]");
   Text "";
   Text "  -n N          number of cores [default N=all cores]";
   Text "  -w W          workload list";
   Text "  --ARG=VAL     replace @ARG with VAL in workload list"].

(** A function that may end the process: it returns, or [process.exit(code)]
    is reached with [out] written so far. *)
Inductive exiting (A : Type) :=
| Returned (a : A)
| Exited (code : Z) (out : list line).
Arguments Returned {A} a.
Arguments Exited {A} code out.

(** The part of [setupWorkload] the two variants share: extraction, check,
    substitution. *)
Definition expand_tasks (argv1 : string) (args : gmap string string)
    (tasks : list string) : exiting (list string) :=
  let defines := extract_defines tasks in
  match List.find (fun define => negb (has_define args define)) defines with
  | Some define =>
      Exited 1 (usage argv1 ++ [Text ("must supply define " ++ define)])
  | None => Returned (map (substitute args defines) tasks)
  end.

(** A JS number that holds a whole value of the safe range, below [2^53]
    in absolute value.  On such a number the arithmetic of
    [getDurationString] is that of the integers: the number and its
    remainders by 3600 and by 60 are exact, the doubles nearest to
    [seconds / 3600] and [seconds / 60] lie between the whole quotient and
    the next whole number (the distance to the latter is at least [1/3600],
    more than half the spacing [2^-11] of the doubles below [2^42]), so that
    [Math.floor] gives the whole quotient, and the number is printed in
    plain decimal digits.  Past the safe range the source computes on
    rounded values, which is outside this embedding. *)
Record safe_integer := mkSafe {
  value : Z;
  value_safe : (Z.abs value <? 2 ^ 53) = true
}.

(** ** The bare variant (src/unnamed/part_000) *)

Module Bare.

(** [getDurationString] on the whole seconds [end[0]] that [schedule]
    passes, a safe integer. *)
Definition getDurationString (whole : safe_integer) : string :=
  let seconds := value whole in
  let ret := ""%string in
  let '(ret, seconds) :=
    if 3600 <=? seconds
    then ((ret ++ toString (seconds / 3600) ++ "h")%string, seconds mod 3600)
    else (ret, seconds) in
  let '(ret, seconds) :=
    if 60 <=? seconds
    then ((ret ++ toString (seconds / 60) ++ "m")%string, seconds mod 60)
    else (ret, seconds) in
  (ret ++ toString seconds ++ "s")%string.

Record state := mkState {
  avail_slots : Z;
  pending_tasks : list resolver
}.

(** [acquireSlot]: [true] is the immediate [return true]; [false] stands
    for returning the still pending [slot_promise], whose [resolve] is
    [r]. *)
Definition acquireSlot (r : resolver) (s : state) : state * bool :=
  if 0 <? avail_slots s then
    (mkState (avail_slots s - 1) (pending_tasks s), true)
  else
    (mkState (avail_slots s) (pending_tasks s ++ [r]), false).

(** [releaseSlot]: the second component is the resolver that was called,
    if any. *)
Definition releaseSlot (s : state) : state * option resolver :=
  match pending_tasks s with
  | acquire_resolve :: rest =>
      (mkState (avail_slots s) rest, Some acquire_resolve)
  | [] =>
      (mkState (avail_slots s + 1) [], None)
  end.

Definition sem_step (o : op) (s : state) : state * obs :=
  match o with
  | Acquire r =>
      let (s', granted) := acquireSlot r s in (s', obs_acquire r granted)
  | Release _ _ =>
      let (s', woken) := releaseSlot s in (s', obs_release woken)
  end.

Fixpoint sem_run (ops : list op) (s : state) : state * list obs :=
  match ops with
  | [] => (s, [])
  | o :: ops' =>
      let (s1, ob) := sem_step o s in
      let (s2, obs') := sem_run ops' s1 in
      (s2, ob :: obs')
  end.

(** The state [schedule] works on: the semaphore, the task list, one
    status per callback entered so far, and the console. *)
Record run := mkRun {
  sem : state;
  tasks : list string;
  procs : list status;
  console : list line
}.

(** The callback of [forEach] up to its first [await]. *)
Definition callback_enter (idx : nat) (r : run) : run :=
  let (s, granted) := acquireSlot idx (sem r) in
  mkRun s (tasks r)
        (procs r ++ [if granted then Granted else Waiting]) (console r).

Definition schedule (tasks : list string) (s : state) : run :=
  fold_left (fun r idx => callback_enter idx r)
            (seq 0 (length tasks)) (mkRun s tasks [] []).

(** From [await acquireSlot()] to [await workload_promise]. *)
Definition callback_resume (idx : nat) (r : run) : option run :=
  match procs r !! idx, tasks r !! idx with
  | Some Granted, Some task =>
      Some (mkRun (sem r) (tasks r) (<[idx := Running]> (procs r))
                  (console r ++ [BareStarting task]))
  | _, _ => None
  end.

(** After [await workload_promise]. *)
Definition callback_settle (idx : nat) (o : outcome) (seconds : Z) (r : run)
  : option run :=
  match procs r !! idx, tasks r !! idx with
  | Some Running, Some task =>
      match o with
      | Rejected =>
          Some (mkRun (sem r) (tasks r) (<[idx := Failed]> (procs r))
                      (console r))
      | Fulfilled stdout stderr =>
          let out := console r ++ [BareFinishedIn task seconds]
                       ++ output_block "=== stdout" stdout
                       ++ output_block "=== stderr" stderr in
          let (s, woken) := releaseSlot (sem r) in
          Some (mkRun s (tasks r)
                      (resolve woken (<[idx := Finished]> (procs r))) out)
      end
  | _, _ => None
  end.

Definition step (e : event) (r : run) : option run :=
  match e with
  | Resume idx => callback_resume idx r
  | Settle idx o seconds _ _ => callback_settle idx o seconds r
  end.

Fixpoint run_events (evs : list event) (r : run) : option run :=
  match evs with
  | [] => Some r
  | e :: evs' =>
      match step e r with
      | Some r' => run_events evs' r'
      | None => None
      end
  end.

(** [setupWorkload]; [contents] is what [fs.readFileSync] returned. *)
Definition setupWorkload (argv1 contents : string)
    (args : gmap string string) : exiting (list string) :=
  expand_tasks argv1 args (pop (split EOL contents)).

End Bare.

(** ** The extended variant (src/pmanage.js) *)

(** The module-level variables, plus the console. [uptime_interval] is
    [true] while the interval timer is armed. *)
Record state := mkState {
  total_slots : Z;
  avail_slots : Z;
  start_time : time;
  pending_tasks : list resolver;
  thread_end_times : list time;
  uptime_interval : bool;
  console : list line
}.

Definition with_avail (a : Z) (s : state) : state :=
  mkState (total_slots s) a (start_time s) (pending_tasks s)
          (thread_end_times s) (uptime_interval s) (console s).

Definition with_pending (p : list resolver) (s : state) : state :=
  mkState (total_slots s) (avail_slots s) (start_time s) p
          (thread_end_times s) (uptime_interval s) (console s).

Definition with_end_times (l : list time) (s : state) : state :=
  mkState (total_slots s) (avail_slots s) (start_time s) (pending_tasks s)
          l (uptime_interval s) (console s).

Definition with_interval (b : bool) (s : state) : state :=
  mkState (total_slots s) (avail_slots s) (start_time s) (pending_tasks s)
          (thread_end_times s) b (console s).

Definition log (l : list line) (s : state) : state :=
  mkState (total_slots s) (avail_slots s) (start_time s) (pending_tasks s)
          (thread_end_times s) (uptime_interval s) (console s ++ l).

(** [seconds.toFixed(2)] for a whole number. *)
Definition toFixed2 (seconds : Z) : string := (toString seconds ++ ".00")%string.

(** [getDurationString] on whole seconds, which is what [schedule] passes
    ([end[0]]), a safe integer; the call of [fin] on a fraction of seconds is
    outside this definition. *)
Definition getDurationString (whole : safe_integer) : string :=
  let seconds := value whole in
  let ret := ""%string in
  let '(ret, seconds) :=
    if 3600 <=? seconds
    then ((ret ++ toString (seconds / 3600) ++ "h")%string, seconds mod 3600)
    else (ret, seconds) in
  let '(ret, seconds) :=
    if 60 <=? seconds
    then ((ret ++ toString (seconds / 60) ++ "m")%string, seconds mod 60)
    else (ret, seconds) in
  (ret ++ toFixed2 seconds ++ "s")%string.

(** The loop of [fin] over [thread_end_times]. *)
Definition unused_area_of (end_time : time) (l : list time) : Z :=
  fold_left (fun unused_area thread_end_time =>
               unused_area + (end_time - thread_end_time)) l 0.

Definition utilization_of (total_area unused_area : Z) : jsnum :=
  js_mul100 (js_div (total_area - unused_area) total_area).

(** [fin]; [end_time] is the reading of [new Date()] on its first line. *)
Definition fin (end_time : time) (s : state) : state :=
  let total_duration := end_time - start_time s in
  let unused_area := unused_area_of end_time (thread_end_times s) in
  let total_area := total_duration * total_slots s in
  with_interval false
    (log [CompletedIn total_duration;
          Utilization (utilization_of total_area unused_area)] s).

Definition acquireSlot (r : resolver) (s : state) : state * bool :=
  if 0 <? avail_slots s then
    (with_avail (avail_slots s - 1) s, true)
  else
    (with_pending (pending_tasks s ++ [r]) s, false).

(** [releaseSlot]; [now] is the reading pushed on [thread_end_times] and
    [end_time] the one [fin] takes, should it be called. *)
Definition releaseSlot (now end_time : time) (s : state)
  : state * option resolver :=
  match pending_tasks s with
  | acquire_resolve :: rest =>
      (with_pending rest s, Some acquire_resolve)
  | [] =>
      let s1 := with_end_times (thread_end_times s ++ [now]) s in
      let s2 := with_avail (avail_slots s1 + 1) s1 in
      (if avail_slots s2 =? total_slots s2 then fin end_time s2 else s2, None)
  end.

Definition sem_step (o : op) (s : state) : state * obs :=
  match o with
  | Acquire r =>
      let (s', granted) := acquireSlot r s in (s', obs_acquire r granted)
  | Release now end_time =>
      let (s', woken) := releaseSlot now end_time s in (s', obs_release woken)
  end.

Fixpoint sem_run (ops : list op) (s : state) : state * list obs :=
  match ops with
  | [] => (s, [])
  | o :: ops' =>
      let (s1, ob) := sem_step o s in
      let (s2, obs') := sem_run ops' s1 in
      (s2, ob :: obs')
  end.

(** The state [main] leaves for a concurrency of [n], with the module loaded
    at [start]. *)
Definition init (n : Z) (start : time) : state :=
  mkState n n start [] [] true [].

(** The usage protocol of the semaphore: a release is issued by a task that
    holds a slot. [holders] counts the tasks that were granted (at once or
    by a hand-off) and have not released yet; a release without a holder is
    not part of any run ([None]). *)
Definition protocol_step (o : op) (c : state * nat) : option (state * nat) :=
  let (s, holders) := c in
  match o with
  | Acquire r =>
      let (s', granted) := acquireSlot r s in
      Some (s', if granted then S holders else holders)
  | Release now end_time =>
      match holders with
      | O => None
      | S k =>
          let (s', woken) := releaseSlot now end_time s in
          Some (s', match woken with Some _ => S k | None => k end)
      end
  end.

Fixpoint protocol_run (ops : list op) (c : state * nat)
  : option (state * nat) :=
  match ops with
  | [] => Some c
  | o :: ops' =>
      match protocol_step o c with
      | Some c' => protocol_run ops' c'
      | None => None
      end
  end.

(** The state [schedule] works on: the globals, the task list, the two
    locals [total_tasks] and [completed_tasks], and one status per callback
    entered so far. *)
Record run := mkRun {
  globals : state;
  tasks : list string;
  total_tasks : nat;
  completed_tasks : nat;
  procs : list status
}.

(** The callback of [forEach] up to its first [await]. *)
Definition callback_enter (idx : nat) (r : run) : run :=
  let (g, granted) := acquireSlot idx (globals r) in
  mkRun g (tasks r) (total_tasks r) (completed_tasks r)
        (procs r ++ [if granted then Granted else Waiting]).

Definition schedule (tasks : list string) (g : state) : run :=
  fold_left (fun r idx => callback_enter idx r)
            (seq 0 (length tasks)) (mkRun g tasks (length tasks) 0 []).

(** From [await acquireSlot()] to [await workload_promise]. *)
Definition callback_resume (idx : nat) (r : run) : option run :=
  match procs r !! idx, tasks r !! idx with
  | Some Granted, Some task =>
      Some (mkRun (log [Starting (idx + 1) (total_tasks r) task] (globals r))
                  (tasks r) (total_tasks r) (completed_tasks r)
                  (<[idx := Running]> (procs r)))
  | _, _ => None
  end.

(** After [await workload_promise]: a rejection is thrown out of the
    callback; a fulfilment reaches the report and [releaseSlot()]. *)
Definition callback_settle (idx : nat) (o : outcome) (seconds : Z)
    (now end_time : time) (r : run) : option run :=
  match procs r !! idx, tasks r !! idx with
  | Some Running, Some task =>
      match o with
      | Rejected =>
          Some (mkRun (globals r) (tasks r) (total_tasks r)
                      (completed_tasks r) (<[idx := Failed]> (procs r)))
      | Fulfilled stdout stderr =>
          let g1 := log [FinishedIn (completed_tasks r + 1) (total_tasks r)
                                    task seconds] (globals r) in
          let completed := S (completed_tasks r) in
          let g2 := log (output_block "=== stdout" stdout) g1 in
          let g3 := log (output_block "=== stderr" stderr) g2 in
          let (g4, woken) := releaseSlot now end_time g3 in
          Some (mkRun g4 (tasks r) (total_tasks r) completed
                      (resolve woken (<[idx := Finished]> (procs r))))
      end
  | _, _ => None
  end.

Definition step (e : event) (r : run) : option run :=
  match e with
  | Resume idx => callback_resume idx r
  | Settle idx o seconds now end_time =>
      callback_settle idx o seconds now end_time r
  end.

Fixpoint run_events (evs : list event) (r : run) : option run :=
  match evs with
  | [] => Some r
  | e :: evs' =>
      match step e r with
      | Some r' => run_events evs' r'
      | None => None
      end
  end.

(** The promise that a callback returns is rejected when its command
    fails, and nothing in the source handles it.  What follows is the
    runtime's choice: Node before version 15 prints a warning and lets the
    process go on, Node from version 15 on ends the process with exit
    status 1. *)
Inductive unhandled := GoesOn | EndsProcess.

(** The process: alive in a state, or ended in the state it had reached. *)
Inductive process :=
| Alive (r : run)
| Ended (r : run).

Definition last_state (p : process) : run :=
  match p with Alive r | Ended r => r end.

Definition is_rejection (e : event) : bool :=
  match e with Settle _ Rejected _ _ _ => true | _ => false end.

(** One event under a policy: an ended process takes no event. *)
Definition node_step (policy : unhandled) (e : event) (p : process)
  : option process :=
  match p with
  | Ended _ => None
  | Alive r =>
      match step e r with
      | Some r' =>
          Some (match policy with
                | EndsProcess => if is_rejection e then Ended r' else Alive r'
                | GoesOn => Alive r'
                end)
      | None => None
      end
  end.

Fixpoint node_run (policy : unhandled) (evs : list event) (p : process)
  : option process :=
  match evs with
  | [] => Some p
  | e :: evs' =>
      match node_step policy e p with
      | Some p' => node_run policy evs' p'
      | None => None
      end
  end.

(** Readings of the clock never go back: each release reads [now] and then
    [end_time], and later events read later. *)
Fixpoint clock_ok (last : time) (evs : list event) : bool :=
  match evs with
  | [] => true
  | Resume _ :: evs' => clock_ok last evs'
  | Settle _ _ _ now end_time :: evs' =>
      (last <=? now) && (now <=? end_time) && clock_ok end_time evs'
  end.

(** Counting. *)
Definition holds_slot (st : status) : bool :=
  match st with Granted | Running | Failed => true | _ => false end.

Definition is_running (st : status) : bool :=
  match st with Running => true | _ => false end.

Definition is_finished (st : status) : bool :=
  match st with Finished => true | _ => false end.

Definition is_summary (l : line) : bool :=
  match l with Utilization _ => true | _ => false end.

Definition count {A} (p : A -> bool) (l : list A) : nat :=
  length (List.filter p l).

Definition summaries (r : run) : nat := count is_summary (console (globals r)).

Definition is_failed (st : status) : bool :=
  match st with Failed => true | _ => false end.

(** The commands of a list of events that failed. *)
Definition rejections (evs : list event) : nat := count is_rejection evs.

Definition is_active (st : status) : bool :=
  match st with Granted | Running => true | _ => false end.

(** The events that have taken place, read off the statuses: one for a
    task that runs, two for a task whose command has settled. *)
Definition events_done (l : list status) : nat :=
  (count is_running l + 2 * count is_finished l + 2 * count is_failed l)%nat.

(** [setupWorkload]; [contents] is what [fs.readFileSync] returned. *)
Definition setupWorkload (argv1 contents : string)
    (args : gmap string string) : exiting (list string) :=
  expand_tasks argv1 args (pop (List.filter not_comment (split EOL contents))).

(** [main]. [cpus] is [os.cpus().length], [w] the contents of the file named
    by [-w] when the option is given, [n] the value of [-n], [args] the
    [--NAME=value] bindings. The report [begin()] prints once [uname]
    returns is left out. *)
Definition main (cpus : Z) (start : time) (argv1 : string)
    (w : option string) (n : option Z) (args : gmap string string)
  : exiting run :=
  match w with
  | None => Exited 1 (Text "must supply workload list" :: usage argv1)
  | Some contents =>
      let avail := match n with Some k => k | None => cpus end in
      match setupWorkload argv1 contents args with
      | Exited code out => Exited code out
      | Returned tasks => Returned (schedule tasks (init avail start))
      end
  end.

(** The semaphore part of the extended state, as the bare variant has it. *)
Definition sem_of (s : state) : Bare.state :=
  Bare.mkState (avail_slots s) (pending_tasks s).

(** The resolvers that were queued, and those that were called, in the
    order in which it happened. *)
Definition suspended_of (l : list obs) : list resolver :=
  omap (fun o => match o with Suspend r => Some r | _ => None end) l.

Definition woken_of (l : list obs) : list resolver :=
  omap (fun o => match o with Wake r => Some r | _ => None end) l.

(** The invariant of the semaphore for [holders] tasks in possession of a
    slot. *)
Definition sem_inv (s : state) (holders : nat) : Prop :=
  0 <= avail_slots s <= total_slots s
  /\ avail_slots s + Z.of_nat holders = total_slots s
  /\ (pending_tasks s <> [] -> avail_slots s = 0).

(** ** Vocabulary of the statements *)

Definition is_waiting (st : status) : bool :=
  match st with Waiting => true | _ => false end.

Definition b2n (b : bool) : nat := if b then 1%nat else 0%nat.

(** What an operation of the extended variant does beyond the semaphore. *)
Definition extra_effect (o : op) (s s' : state) : Prop :=
  total_slots s' = total_slots s /\ start_time s' = start_time s /\
  match o, pending_tasks s with
  | Release now end_time, [] =>
      thread_end_times s' = thread_end_times s ++ [now] /\
      ((console s' = console s /\ uptime_interval s' = uptime_interval s)
       \/ (avail_slots s' = total_slots s' /\ uptime_interval s' = false /\
           exists d u, console s' = console s ++ [CompletedIn d; Utilization u]))
  | _, _ =>
      thread_end_times s' = thread_end_times s /\
      console s' = console s /\ uptime_interval s' = uptime_interval s
  end.

(** The invariant of a run. *)
Record run_inv (r : run) : Prop := mkRunInv {
  inv_capacity : 1 <= total_slots (globals r);
  inv_avail : 0 <= avail_slots (globals r);
  inv_slots :
    avail_slots (globals r) + Z.of_nat (count holds_slot (procs r))
    = total_slots (globals r);
  inv_full : pending_tasks (globals r) <> [] -> avail_slots (globals r) = 0;
  inv_queue : forall i, i ∈ pending_tasks (globals r) <-> procs r !! i = Some Waiting;
  inv_nodup : NoDup (pending_tasks (globals r));
  inv_waiting : count is_waiting (procs r) = length (pending_tasks (globals r));
  inv_completed : completed_tasks r = count is_finished (procs r);
  inv_idle :
    Z.of_nat (length (thread_end_times (globals r))) <= avail_slots (globals r)
}.

(** While [forEach] is still entering callbacks. *)
Record entering (r : run) : Prop := mkEntering {
  ent_inv : run_inv r;
  ent_completed : completed_tasks r = 0%nat;
  ent_console : console (globals r) = [];
  ent_times : thread_end_times (globals r) = [];
  ent_tasks : total_tasks r = length (tasks r)
}.

(** What holds from the return of [schedule] on. *)
Record run_ok (r : run) : Prop := mkRunOk {
  ok_inv : run_inv r;
  ok_len : length (procs r) = total_tasks r;
  ok_tasks : length (tasks r) = total_tasks r;
  ok_fired :
    completed_tasks r = total_tasks r -> (0 < total_tasks r)%nat ->
    summaries r = 1%nat;
  ok_quiet :
    (completed_tasks r < total_tasks r)%nat \/ total_tasks r = 0%nat ->
    summaries r = 0%nat
}.

(** Whether [releaseSlot] calls [fin]. *)
Definition fires (s : state) : bool :=
  match pending_tasks s with
  | [] => avail_slots s + 1 =? total_slots s
  | _ :: _ => false
  end.

Definition summary_lines (now end_time : time) (s : state) : list line :=
  [CompletedIn (end_time - start_time s);
   Utilization (utilization_of
                  ((end_time - start_time s) * total_slots s)
                  (unused_area_of end_time (thread_end_times s ++ [now])))].

Definition pct_ok (u : jsnum) : Prop :=
  exists q, u = JFinite q /\ (0 <= q)%Q /\ (q <= 100)%Q.

(** Every utilization figure on the console is a percentage, unless the
    run it closes had no duration at all. *)
Definition console_ok (con : list line) : Prop :=
  forall u, In (Utilization u) con ->
            pct_ok u \/ (u = JNaN /\ In (CompletedIn 0) con).

Record times_ok (last : time) (r : run) : Prop := mkTimesOk {
  tm_start : start_time (globals r) <= last;
  tm_idle : Forall (fun t => start_time (globals r) <= t <= last)
              (thread_end_times (globals r));
  tm_console : console_ok (console (globals r))
}.

Definition last_reading (e : event) (last : time) : time :=
  match e with
  | Resume _ => last
  | Settle _ _ _ _ end_time => end_time
  end.

(** Workload texts as the expansion expects them: every line ends with the
    line terminator and holds none inside. *)
Fixpoint has_eol (s : string) : bool :=
  match s with
  | String c rest => Ascii.eqb LF c || has_eol rest
  | EmptyString => false
  end.

Fixpoint has_dollar (s : string) : bool :=
  match s with
  | String c rest => Ascii.eqb c "$" || has_dollar rest
  | EmptyString => false
  end.

Definition terminated (lines : list string) : string :=
  fold_right (fun l text => (l ++ EOL ++ text)%string) "" lines.

(** Line breaks in a text. *)
Definition is_break (c : ascii) : bool := Ascii.eqb c LF || Ascii.eqb c CR.

Fixpoint has_break (s : string) : bool :=
  match s with
  | String c rest => is_break c || has_break rest
  | EmptyString => false
  end.

Fixpoint string_filter (p : ascii -> bool) (s : string) : string :=
  match s with
  | String c rest =>
      if p c then String c (string_filter p rest) else string_filter p rest
  | EmptyString => ""
  end.


Fixpoint all_upper (s : string) : bool :=
  match s with
  | String c rest => is_upper c && all_upper rest
  | EmptyString => true
  end.

(** A duration with its hour and minute parts left out when they are zero. *)
Definition duration_text (h m : Z) (s : string) : string :=
  let hours := if 0 <? h then (toString h ++ "h")%string else ""%string in
  let minutes := if 0 <? m then (toString m ++ "m")%string else ""%string in
  (hours ++ minutes ++ s ++ "s")%string.

(** The console of the bare variant read off the console of the extended
    one: the counters of the progress lines and the summary are dropped. *)
Definition bare_line (l : line) : option line :=
  match l with
  | Text s => Some (Text s)
  | Starting _ _ task => Some (BareStarting task)
  | FinishedIn _ _ task seconds => Some (BareFinishedIn task seconds)
  | BareStarting task => Some (BareStarting task)
  | BareFinishedIn task seconds => Some (BareFinishedIn task seconds)
  | CompletedIn _ => None
  | Utilization _ => None
  end.

Definition bare_of (r : run) : Bare.run :=
  Bare.mkRun (sem_of (globals r)) (tasks r) (procs r)
             (omap bare_line (console (globals r))).

(** The numbers shown by the progress lines, in the order printed. *)
Definition finished_indices (con : list line) : list nat :=
  omap (fun l => match l with FinishedIn k _ _ _ => Some k | _ => None end) con.

Definition started_indices (con : list line) : list nat :=
  omap (fun l => match l with Starting i _ _ => Some i | _ => None end) con.

Definition has_started (st : status) : bool :=
  match st with Running | Finished | Failed => true | _ => false end.

(** The state [schedule] returns: the first [min n M] tasks hold a slot, the
    others wait in the order of the list. *)
Definition scheduled (n : Z) (start : time) (ts : list string) (j : nat) : run :=
  let k := Nat.min (Z.to_nat n) j in
  mkRun (mkState n (n - Z.of_nat k) start (seq k (j - k)) [] true [])
        ts (length ts) 0
        (replicate k Granted ++ replicate (j - k) Waiting).

(** The lines [fin] may add. *)
Definition completion (extra : list line) (before after : bool) : Prop :=
  (extra = [] /\ after = before)
  \/ (exists d u, extra = [CompletedIn d; Utilization u] /\ after = false).

(** One step, read backwards. *)
Inductive step_shape (r r' : run) : event -> Prop :=
| shape_resume idx task :
    procs r !! idx = Some Granted -> tasks r !! idx = Some task ->
    console (globals r')
    = console (globals r) ++ [Starting (idx + 1) (total_tasks r) task] ->
    uptime_interval (globals r') = uptime_interval (globals r) ->
    completed_tasks r' = completed_tasks r ->
    procs r' = <[idx := Running]> (procs r) ->
    step_shape r r' (Resume idx)
| shape_reject idx seconds now end_time :
    procs r !! idx = Some Running ->
    globals r' = globals r ->
    completed_tasks r' = completed_tasks r ->
    procs r' = <[idx := Failed]> (procs r) ->
    step_shape r r' (Settle idx Rejected seconds now end_time)
| shape_fulfil idx out err seconds now end_time task extra :
    procs r !! idx = Some Running -> tasks r !! idx = Some task ->
    console (globals r')
    = console (globals r)
      ++ [FinishedIn (completed_tasks r + 1) (total_tasks r) task seconds]
      ++ output_block "=== stdout" out ++ output_block "=== stderr" err
      ++ extra ->
    completion extra (uptime_interval (globals r))
               (uptime_interval (globals r')) ->
    completed_tasks r' = S (completed_tasks r) ->
    procs r' = resolve (head (pending_tasks (globals r)))
                       (<[idx := Finished]> (procs r)) ->
    step_shape r r' (Settle idx (Fulfilled out err) seconds now end_time).

(** The interval timer is armed exactly as long as no summary is printed. *)
Definition timer_inv (r : run) : Prop :=
  (uptime_interval (globals r) = true /\ summaries r = 0%nat)
  \/ (uptime_interval (globals r) = false /\ (0 < summaries r)%nat).

(** The tasks announced on the console are those handed to [exec], each
    once and under its own position and command. *)
Definition started_inv (r : run) : Prop :=
  NoDup (started_indices (console (globals r)))
  /\ (forall k, k ∈ started_indices (console (globals r)) <->
                exists i st, k = (i + 1)%nat /\ procs r !! i = Some st
                             /\ has_started st = true)
  /\ (forall i total task,
        In (Starting i total task) (console (globals r)) ->
        total = total_tasks r
        /\ exists j, i = (j + 1)%nat /\ tasks r !! j = Some task).

(** A text whose last line [last] has no terminator. *)
Definition with_last (lines : list string) (last : string) : string :=
  fold_right (fun l text => (l ++ EOL ++ text)%string) last lines.

(** The queue holds the positions [k, ..., M - 1] of the list, in order. *)
Definition queue_is_tail (r : run) : Prop :=
  exists k, (k <= total_tasks r)%nat
            /\ pending_tasks (globals r) = seq k (total_tasks r - k).

(** * Properties of the semaphore *)

Section Semaphore.

Implicit Types (s : state) (r : resolver) (ops : list op).

Lemma acquireSlot_free r s :
  0 < avail_slots s ->
  acquireSlot r s = (with_avail (avail_slots s - 1) s, true).
Proof.
  intros Hpos. unfold acquireSlot.
  by destruct (Z.ltb_spec 0 (avail_slots s)); [|lia].
Qed.

Lemma acquireSlot_full r s :
  avail_slots s <= 0 ->
  acquireSlot r s = (with_pending (pending_tasks s ++ [r]) s, false).
Proof.
  intros Hfull. unfold acquireSlot.
  by destruct (Z.ltb_spec 0 (avail_slots s)); [lia|].
Qed.

Lemma releaseSlot_sem now end_time s :
  let (s', woken) := releaseSlot now end_time s in
  Bare.releaseSlot (sem_of s) = (sem_of s', woken).
Proof.
  unfold releaseSlot, Bare.releaseSlot, sem_of.
  destruct s as [tot av st [|r rest] tet ui con]; simpl; [|done].
  by destruct (av + 1 =? tot).
Qed.

Lemma acquireSlot_sem r s :
  let (s', granted) := acquireSlot r s in
  Bare.acquireSlot r (sem_of s) = (sem_of s', granted).
Proof.
  unfold acquireSlot, Bare.acquireSlot, sem_of.
  destruct s as [tot av st pend tet ui con]; simpl.
  by destruct (0 <? av).
Qed.

Lemma sem_step_sem o s :
  let (s', ob) := sem_step o s in
  Bare.sem_step o (sem_of s) = (sem_of s', ob).
Proof.
  destruct o as [r|now end_time]; simpl.
  - pose proof (acquireSlot_sem r s) as H.
    destruct (acquireSlot r s) as [s' b]. by rewrite H.
  - pose proof (releaseSlot_sem now end_time s) as H.
    destruct (releaseSlot now end_time s) as [s' w]. by rewrite H.
Qed.

Lemma sem_run_sem ops : forall s,
  let (s', l) := sem_run ops s in
  Bare.sem_run ops (sem_of s) = (sem_of s', l).
Proof.
  induction ops as [|o ops IH]; intros s; [done|].
  cbn [sem_run Bare.sem_run].
  pose proof (sem_step_sem o s) as Hstep.
  destruct (sem_step o s) as [s1 ob]. rewrite Hstep.
  specialize (IH s1). destruct (sem_run ops s1) as [s2 l]. by rewrite IH.
Qed.

Lemma sem_step_extra o s : extra_effect o s (fst (sem_step o s)).
Proof.
  destruct s as [tot av st pend tet ui con].
  destruct o as [r|now end_time]; unfold extra_effect; simpl.
  - unfold acquireSlot; simpl. destruct (0 <? av); simpl.
    + by destruct pend.
    + by destruct pend.
  - destruct pend as [|w rest]; simpl; [|done].
    destruct (Z.eqb_spec (av + 1) tot) as [Heq|Hne]; simpl.
    + repeat split; try done. right. repeat split; try done. eauto.
    + repeat split; try done. by left.
Qed.

Lemma releaseSlot_empty now end_time s :
  pending_tasks s = [] ->
  snd (releaseSlot now end_time s) = None
  /\ pending_tasks (fst (releaseSlot now end_time s)) = []
  /\ avail_slots (fst (releaseSlot now end_time s)) = avail_slots s + 1
  /\ total_slots (fst (releaseSlot now end_time s)) = total_slots s
  /\ start_time (fst (releaseSlot now end_time s)) = start_time s
  /\ thread_end_times (fst (releaseSlot now end_time s))
     = thread_end_times s ++ [now].
Proof.
  destruct s as [tot av st pend tet ui con]; simpl. intros ->.
  unfold releaseSlot; simpl. by destruct (av + 1 =? tot).
Qed.

Lemma releaseSlot_waiter now end_time s w rest :
  pending_tasks s = w :: rest ->
  releaseSlot now end_time s = (with_pending rest s, Some w).
Proof. unfold releaseSlot. by intros ->. Qed.

(** Queue discipline: what was queued is what was woken, followed by what
    still waits. *)
Lemma queue_order ops : forall s,
  pending_tasks s ++ suspended_of (snd (sem_run ops s))
  = woken_of (snd (sem_run ops s)) ++ pending_tasks (fst (sem_run ops s)).
Proof.
  induction ops as [|o ops IH]; intros s.
  - simpl. by rewrite app_nil_r.
  - cbn [sem_run].
    destruct (sem_step o s) as [s1 ob] eqn:Hstep.
    specialize (IH s1). destruct (sem_run ops s1) as [s2 l]. simpl in *.
    destruct o as [r|now end_time]; simpl in Hstep.
    + unfold acquireSlot in Hstep.
      destruct (0 <? avail_slots s); injection Hstep as <- <-; simpl in *.
      * done.
      * by rewrite <- IH, <- app_assoc.
    + destruct (pending_tasks s) as [|w rest] eqn:Hp.
      * destruct (releaseSlot_empty now end_time s Hp) as (Hw & Hp1 & _).
        destruct (releaseSlot now end_time s) as [s1' w1]; simpl in *.
        injection Hstep as <- <-. subst w1. simpl. by rewrite <- IH, Hp1.
      * rewrite (releaseSlot_waiter _ _ _ _ _ Hp) in Hstep.
        injection Hstep as <- <-. simpl in *. by rewrite <- IH.
Qed.

Lemma protocol_step_inv o s h s' h' :
  sem_inv s h -> protocol_step o (s, h) = Some (s', h') -> sem_inv s' h'.
Proof.
  unfold sem_inv. intros (Hr & Hsum & Hq) Hstep.
  destruct o as [r|now end_time]; simpl in Hstep.
  - unfold acquireSlot in Hstep.
    destruct (Z.ltb_spec 0 (avail_slots s));
      injection Hstep as <- <-; destruct s; simpl in *.
    + repeat split; try lia. intros Hne. specialize (Hq Hne). lia.
    + repeat split; try lia.
  - destruct h as [|k]; [done|].
    destruct (pending_tasks s) as [|w rest] eqn:Hp.
    + destruct (releaseSlot_empty now end_time s Hp)
        as (Hw & Hp1 & Ha & Ht & _).
      destruct (releaseSlot now end_time s) as [s1 w1]; simpl in *.
      injection Hstep as <- <-. subst w1.
      rewrite Hp1, Ha, Ht. repeat split; try lia. intros H; by destruct H.
    + rewrite (releaseSlot_waiter _ _ _ _ _ Hp) in Hstep.
      injection Hstep as <- <-.
      assert (avail_slots s = 0) by (by apply Hq).
      destruct s; simpl in *. repeat split; try lia.
Qed.

Lemma protocol_run_inv ops : forall s h s' h',
  sem_inv s h -> protocol_run ops (s, h) = Some (s', h') -> sem_inv s' h'.
Proof.
  induction ops as [|o ops IH]; intros s h s' h' Hinv Hrun;
    cbn [protocol_run] in Hrun.
  - by injection Hrun as <- <-.
  - destruct (protocol_step o (s, h)) as [[s1 h1]|] eqn:Hstep; [|done].
    eapply IH; [|done]. by eapply protocol_step_inv.
Qed.

Lemma init_inv n start : 0 <= n -> sem_inv (init n start) 0.
Proof.
  unfold sem_inv; simpl. intros; repeat split; try lia.
  intros H'; by destruct H'.
Qed.

End Semaphore.

(** * Counting statuses *)

Section Counting.

Context {A : Type} (p : A -> bool).

Lemma count_nil : count p [] = 0%nat.
Proof. done. Qed.

Lemma count_cons x l : count p (x :: l) = (b2n (p x) + count p l)%nat.
Proof. unfold count; simpl. by destruct (p x). Qed.

Lemma count_app l1 l2 : count p (l1 ++ l2) = (count p l1 + count p l2)%nat.
Proof.
  induction l1 as [|x l1 IH]; [done|].
  rewrite <- app_comm_cons, !count_cons, IH. lia.
Qed.

Lemma count_le l : (count p l <= length l)%nat.
Proof.
  induction l as [|x l IH]; [done|].
  rewrite count_cons; simpl. destruct (p x); simpl; lia.
Qed.

Lemma count_insert l : forall i x y,
  l !! i = Some x ->
  (count p (<[i := y]> l) + b2n (p x) = count p l + b2n (p y))%nat.
Proof.
  induction l as [|a l IH]; intros [|i] x y Hl; simplify_eq/=.
  - rewrite !count_cons. lia.
  - rewrite !count_cons. specialize (IH i x y Hl). lia.
Qed.

Lemma count_none l : (forall x, In x l -> p x = false) -> count p l = 0%nat.
Proof.
  induction l as [|a l IH]; intros Hall; [done|].
  rewrite count_cons, IH by (intros x Hx; apply Hall; by right).
  rewrite Hall; [done|by left].
Qed.

Lemma count_pos l x : In x l -> p x = true -> (0 < count p l)%nat.
Proof.
  induction l as [|a l IH]; intros Hin Hp; [done|].
  rewrite count_cons. destruct Hin as [->|Hin].
  - rewrite Hp; simpl; lia.
  - specialize (IH Hin Hp). lia.
Qed.

End Counting.

Lemma status_partition (l : list status) :
  (count is_waiting l + count holds_slot l + count is_finished l = length l)%nat.
Proof.
  induction l as [|st l IH]; [done|].
  rewrite !count_cons; simpl. destruct st; simpl; lia.
Qed.

Lemma running_holds (l : list status) :
  (count is_running l <= count holds_slot l)%nat.
Proof.
  induction l as [|st l IH]; [done|].
  rewrite !count_cons. destruct st; simpl; lia.
Qed.

Section Scheduler.

Implicit Types (r : run) (idx : nat).

Lemma callback_enter_static idx r :
  total_slots (globals (callback_enter idx r)) = total_slots (globals r)
  /\ start_time (globals (callback_enter idx r)) = start_time (globals r)
  /\ tasks (callback_enter idx r) = tasks r
  /\ length (procs (callback_enter idx r)) = S (length (procs r)).
Proof.
  unfold callback_enter, acquireSlot.
  destruct (0 <? avail_slots (globals r)); destruct r as [[] ? ? ? ?]; simpl;
    rewrite length_app; simpl; repeat split; lia.
Qed.

Lemma callback_enter_entering r :
  entering r -> entering (callback_enter (length (procs r)) r).
Proof.
  intros [[Hcap Hav Hsl Hfull Hq Hnd Hw Hc Hidle] Hcomp Hcon Htet Htasks].
  unfold callback_enter.
  destruct (Z.ltb_spec 0 (avail_slots (globals r))) as [Hpos|Hzero].
  - rewrite acquireSlot_free by done.
    destruct r as [[tot av st pend tet ui con] ts tt ct ps]; simpl in *.
    split; [split|..]; simpl; try done; try lia.
    + rewrite count_app, count_cons, count_nil. simpl. lia.
    + intros Hne. specialize (Hfull Hne). lia.
    + intros i. rewrite Hq. split; intros Hi.
      * by apply lookup_app_l_Some.
      * apply lookup_app_Some in Hi as [Hi|[_ Hi]]; [done|].
        destruct (i - length ps)%nat; simplify_eq/=.
    + rewrite count_app, count_cons, count_nil. simpl. lia.
    + rewrite count_app, count_cons, count_nil. simpl. lia.
    + subst tet; simpl; lia.
  - rewrite acquireSlot_full by done.
    assert (Hnew : length (procs r) ∉ pending_tasks (globals r)).
    { intros Hin. apply Hq in Hin. apply lookup_lt_Some in Hin. lia. }
    destruct r as [[tot av st pend tet ui con] ts tt ct ps]; simpl in *.
    split; [split|..]; simpl; try done; try lia.
    + rewrite count_app, count_cons, count_nil. simpl. lia.
    + intros i. rewrite elem_of_app, Hq, list_elem_of_singleton.
      split.
      * intros [Hi| ->]; [by apply lookup_app_l_Some|].
        rewrite lookup_app_r by lia. by rewrite Nat.sub_diag.
      * intros Hi. apply lookup_app_Some in Hi as [Hi|[Hge Hi]]; [by left|].
        right. destruct (i - length ps)%nat as [|k] eqn:Hk; simplify_eq/=. lia.
    + apply NoDup_app. repeat split; [done| |apply NoDup_singleton].
      intros x Hx Hx'. apply list_elem_of_singleton in Hx'. by subst.
    + rewrite count_app, count_cons, count_nil, length_app. simpl. lia.
    + rewrite count_app, count_cons, count_nil. simpl. lia.
Qed.

Lemma entering_fold n : forall r,
  entering r ->
  entering (fold_left (fun r idx => callback_enter idx r)
                      (seq (length (procs r)) n) r)
  /\ length (procs (fold_left (fun r idx => callback_enter idx r)
                              (seq (length (procs r)) n) r))
     = (length (procs r) + n)%nat
  /\ tasks (fold_left (fun r idx => callback_enter idx r)
                      (seq (length (procs r)) n) r) = tasks r
  /\ total_slots (globals (fold_left (fun r idx => callback_enter idx r)
                      (seq (length (procs r)) n) r)) = total_slots (globals r)
  /\ start_time (globals (fold_left (fun r idx => callback_enter idx r)
                      (seq (length (procs r)) n) r)) = start_time (globals r).
Proof.
  induction n as [|n IH]; intros r Hent; simpl.
  - split_and!; try done; lia.
  - destruct (callback_enter_static (length (procs r)) r)
      as (Htot & Hst & Hts & Hlen).
    specialize (IH _ (callback_enter_entering r Hent)).
    rewrite Hlen in IH. destruct IH as (IH1 & IH2 & IH3 & IH4 & IH5).
    split_and!; try done; try congruence; rewrite IH2; lia.
Qed.

Lemma init_entering n start tasks :
  1 <= n -> entering (mkRun (init n start) tasks (length tasks) 0 []).
Proof.
  intros Hn. split; [split|..]; simpl; try done; try lia.
  - rewrite count_nil. simpl. lia.
  - intros i. rewrite lookup_nil. split; [|done]. by intros ?%elem_of_nil.
  - apply NoDup_nil_2.
Qed.

Lemma schedule_static ts n start :
  1 <= n ->
  entering (schedule ts (init n start))
  /\ length (procs (schedule ts (init n start))) = length ts
  /\ tasks (schedule ts (init n start)) = ts
  /\ total_slots (globals (schedule ts (init n start))) = n
  /\ start_time (globals (schedule ts (init n start))) = start.
Proof.
  intros Hn. unfold schedule.
  apply (entering_fold (length ts)
           (mkRun (init n start) ts (length ts) 0 [])).
  by apply init_entering.
Qed.

Lemma schedule_ok ts n start :
  1 <= n -> run_ok (schedule ts (init n start)).
Proof.
  intros Hn.
  destruct (schedule_static ts n start Hn) as (Hent & Hlen & Hts & _).
  destruct Hent as [Hinv Hcomp Hcon Htet Htt].
  split; try done.
  - by rewrite Hlen, Htt, Hts.
  - rewrite Hcomp. lia.
  - intros _. unfold summaries. by rewrite Hcon.
Qed.

Lemma releaseSlot_console now end_time s :
  console (fst (releaseSlot now end_time s))
  = console s ++ (if fires s then summary_lines now end_time s else []).
Proof.
  destruct s as [tot av st [|w rest] tet ui con];
    unfold releaseSlot, fires, summary_lines; simpl.
  - destruct (av + 1 =? tot); simpl; [done|by rewrite app_nil_r].
  - by rewrite app_nil_r.
Qed.

Lemma count_output_block header text :
  count is_summary (output_block header text) = 0%nat.
Proof. unfold output_block. by destruct (String.eqb text ""). Qed.

Lemma queue_insert (ps : list status) (pend : list resolver) idx x y :
  ps !! idx = Some x -> x <> Waiting -> y <> Waiting ->
  (forall i, i ∈ pend <-> ps !! i = Some Waiting) ->
  forall i, i ∈ pend <-> <[idx := y]> ps !! i = Some Waiting.
Proof.
  intros Hx Hxw Hyw Hq i. rewrite Hq.
  destruct (decide (i = idx)) as [->|Hne].
  - rewrite list_lookup_insert_eq by (by eapply lookup_lt_Some).
    rewrite Hx. split; congruence.
  - by rewrite list_lookup_insert_ne.
Qed.

Lemma queue_wake (ps : list status) (rest : list resolver) w :
  NoDup (w :: rest) ->
  (forall i, i ∈ w :: rest <-> ps !! i = Some Waiting) ->
  forall i, i ∈ rest <-> <[w := Granted]> ps !! i = Some Waiting.
Proof.
  intros Hnd Hq i. apply NoDup_cons in Hnd as [Hw _].
  assert (Hpw : ps !! w = Some Waiting) by (apply Hq; by left).
  destruct (decide (i = w)) as [->|Hne].
  - rewrite list_lookup_insert_eq by (by eapply lookup_lt_Some).
    split; [done|congruence].
  - rewrite list_lookup_insert_ne by done. rewrite <- Hq.
    rewrite elem_of_cons. split; [by right|]. by intros [?|?].
Qed.

Lemma resume_ok idx r r' :
  run_ok r -> callback_resume idx r = Some r' -> run_ok r'.
Proof.
  intros [[Hcap Hav Hsl Hfull Hq Hnd Hw Hc Hidle] Hlen Htl Hfired Hquiet] Hstep.
  unfold callback_resume in Hstep.
  destruct (procs r !! idx) as [[]|] eqn:Hp; try done.
  destruct (tasks r !! idx) as [task|] eqn:Ht; try done.
  injection Hstep as <-.
  pose proof (count_insert holds_slot _ _ _ Running Hp) as C1.
  pose proof (count_insert is_waiting _ _ _ Running Hp) as C2.
  pose proof (count_insert is_finished _ _ _ Running Hp) as C3.
  assert (Hsame :
    count is_summary
      (console (globals r) ++ [Starting (idx + 1) (total_tasks r) task])
    = count is_summary (console (globals r))).
  { rewrite count_app, count_cons, count_nil. simpl. lia. }
  unfold summaries in *.
  destruct r as [[tot av st pend tet ui con] ts tt ct ps]; simpl in *.
  split; [split|..]; simpl; try done; try lia.
  - by eapply queue_insert.
  - by rewrite length_insert.
  - intros. unfold summaries; simpl. rewrite Hsame; auto.
  - intros. unfold summaries; simpl. rewrite Hsame; auto.
Qed.

Lemma reject_ok idx seconds now end_time r r' :
  run_ok r ->
  callback_settle idx Rejected seconds now end_time r = Some r' -> run_ok r'.
Proof.
  intros [[Hcap Hav Hsl Hfull Hq Hnd Hw Hc Hidle] Hlen Htl Hfired Hquiet] Hstep.
  unfold callback_settle in Hstep.
  destruct (procs r !! idx) as [[]|] eqn:Hp; try done.
  destruct (tasks r !! idx) as [task|] eqn:Ht; try done.
  injection Hstep as <-.
  pose proof (count_insert holds_slot _ _ _ Failed Hp) as C1.
  pose proof (count_insert is_waiting _ _ _ Failed Hp) as C2.
  pose proof (count_insert is_finished _ _ _ Failed Hp) as C3.
  unfold summaries in *.
  destruct r as [[tot av st pend tet ui con] ts tt ct ps]; simpl in *.
  split; [split|..]; simpl; try done; try lia.
  - by eapply queue_insert.
  - by rewrite length_insert.
Qed.

Lemma fulfil_ok idx stdout stderr seconds now end_time r r' :
  run_ok r ->
  callback_settle idx (Fulfilled stdout stderr) seconds now end_time r
  = Some r' ->
  run_ok r'.
Proof.
  intros [[Hcap Hav Hsl Hfull Hq Hnd Hw Hc Hidle] Hlen Htl Hfired Hquiet] Hstep.
  unfold callback_settle in Hstep.
  destruct (procs r !! idx) as [[]|] eqn:Hp; try done.
  destruct (tasks r !! idx) as [task|] eqn:Ht; try done.
  pose proof (count_insert holds_slot _ _ _ Finished Hp) as C1.
  pose proof (count_insert is_waiting _ _ _ Finished Hp) as C2.
  pose proof (count_insert is_finished _ _ _ Finished Hp) as C3.
  pose proof (status_partition (procs r)) as Hpart.
  pose proof (queue_insert _ _ _ _ Finished Hp ltac:(done) ltac:(done) Hq) as Hq1.
  simpl in C1, C2, C3.
  assert (Hbefore : summaries r = 0%nat) by (apply Hquiet; lia).
  clear Hfired Hquiet.
  pose proof (releaseSlot_console now end_time
    (log (output_block "=== stderr" stderr)
      (log (output_block "=== stdout" stdout)
        (log [FinishedIn (completed_tasks r + 1) (total_tasks r) task seconds]
             (globals r))))) as Hcon.
  unfold summaries in *.
  destruct r as [[tot av st pend tet ui con] ts tt ct ps]; simpl in *.
  destruct (releaseSlot now end_time _) as [g4 woken] eqn:Hrel.
  injection Hstep as <-. simpl in Hcon.
  assert (Hcount : count is_summary (console g4)
                   = b2n (fires (mkState tot av st pend tet ui con))).
  { rewrite Hcon, !count_app, !count_output_block, !count_cons, !count_nil.
    unfold fires; simpl. rewrite Hbefore.
    destruct pend; [|done]. by destruct (av + 1 =? tot). }
  clear Hcon. unfold fires in Hcount; simpl in Hcount.
  destruct pend as [|w rest]; simpl in *.
  - unfold releaseSlot, log in Hrel; simpl in Hrel.
    destruct (Z.eqb_spec (av + 1) tot) as [Heq|Hne];
      injection Hrel as <- <-; simpl in *.
    + split; [split|..]; simpl; try done; try lia.
      * rewrite length_app; simpl; lia.
      * by rewrite length_insert.
    + split; [split|..]; simpl; try done; try lia.
      * rewrite length_app; simpl; lia.
      * by rewrite length_insert.
  - unfold releaseSlot, log in Hrel; simpl in Hrel.
    injection Hrel as <- <-; simpl in *.
    assert (Hav0 : av = 0) by (by apply Hfull).
    assert (Hw1 : <[idx := Finished]> ps !! w = Some Waiting)
      by (apply Hq1; by left).
    pose proof (count_insert holds_slot _ _ _ Granted Hw1) as D1.
    pose proof (count_insert is_waiting _ _ _ Granted Hw1) as D2.
    pose proof (count_insert is_finished _ _ _ Granted Hw1) as D3.
    simpl in *.
    split; [split|..]; simpl; try done; try lia.
    + by apply queue_wake.
    + by apply NoDup_cons in Hnd as [_ ?].
    + by rewrite !length_insert.
Qed.

Lemma step_ok e r r' : run_ok r -> step e r = Some r' -> run_ok r'.
Proof.
  intros Hok Hstep. destruct e as [idx|idx [out err|] seconds now end_time];
    simpl in Hstep.
  - by eapply resume_ok.
  - by eapply fulfil_ok.
  - by eapply reject_ok.
Qed.

Lemma run_events_ok evs : forall r r',
  run_ok r -> run_events evs r = Some r' -> run_ok r'.
Proof.
  induction evs as [|e evs IH]; intros r r' Hok Hrun; cbn [run_events] in Hrun.
  - by injection Hrun as <-.
  - destruct (step e r) as [r1|] eqn:Hstep; [|done].
    eapply IH; [|done]. by eapply step_ok.
Qed.

End Scheduler.

(** * Clock readings and the utilization figure *)

Section Utilization.

Lemma pct_bounds a b :
  0 <= a <= b -> 0 < b ->
  (0 <= inject_Z a / inject_Z b * 100)%Q
  /\ (inject_Z a / inject_Z b * 100 <= 100)%Q.
Proof.
  intros Ha Hb. destruct b as [|p|p]; try lia.
  unfold Qle, Qdiv, Qmult, Qinv, inject_Z; simpl. split; nia.
Qed.

Lemma pct_full a : 0 < a -> (inject_Z a / inject_Z a * 100 == 100)%Q.
Proof.
  intros Ha. destruct a as [|p|p]; try lia.
  unfold Qeq, Qdiv, Qmult, Qinv, inject_Z; simpl. lia.
Qed.

Lemma unused_area_acc end_time l : forall acc,
  fold_left (fun unused_area thread_end_time =>
               unused_area + (end_time - thread_end_time)) l acc
  = acc + unused_area_of end_time l.
Proof.
  unfold unused_area_of.
  induction l as [|t l IH]; intros acc; simpl; [lia|].
  rewrite (IH (acc + _)), (IH (0 + _)). lia.
Qed.

Lemma unused_area_cons end_time t l :
  unused_area_of end_time (t :: l)
  = (end_time - t) + unused_area_of end_time l.
Proof. unfold unused_area_of at 1; simpl. by rewrite unused_area_acc. Qed.

Lemma unused_area_bounds start end_time l :
  Forall (fun t => start <= t <= end_time) l ->
  0 <= unused_area_of end_time l
    <= Z.of_nat (length l) * (end_time - start).
Proof.
  induction 1 as [|t l Ht _ IH]; [done|].
  rewrite unused_area_cons. cbn [length]. nia.
Qed.

(** The figure [fin] prints, for a state whose idle stamps lie within the
    run and are no more than the slots. *)
Lemma utilization_range start total end_time l :
  1 <= total -> start <= end_time ->
  Forall (fun t => start <= t <= end_time) l ->
  Z.of_nat (length l) <= total ->
  (start < end_time ->
   pct_ok (utilization_of ((end_time - start) * total)
                          (unused_area_of end_time l)))
  /\ (start = end_time ->
      utilization_of ((end_time - start) * total)
                     (unused_area_of end_time l) = JNaN).
Proof.
  intros Htot Hle Hl Hlen.
  pose proof (unused_area_bounds start end_time l Hl) as Hb.
  unfold utilization_of, js_div. split.
  - intros Hlt.
    destruct (Z.eqb_spec ((end_time - start) * total) 0) as [H0|_]; [nia|].
    simpl. eexists; split; [done|]. apply pct_bounds; nia.
  - intros ->. replace ((end_time - end_time) * total) with 0 by lia.
    replace (unused_area_of end_time l) with 0 by lia. done.
Qed.

Lemma console_ok_app con l :
  console_ok con -> (forall u, ~ In (Utilization u) l) -> console_ok (con ++ l).
Proof.
  intros Hok Hno u Hin. apply in_app_or in Hin as [Hin|Hin].
  - destruct (Hok u Hin) as [?|[-> ?]]; [by left|].
    right; split; [done|]. apply in_or_app; by left.
  - by destruct (Hno u).
Qed.

Lemma output_block_plain header text u :
  ~ In (Utilization u) (output_block header text).
Proof.
  unfold output_block. destruct (String.eqb text ""); simpl; [tauto|].
  intros [?|[?|[?|[]]]]; done.
Qed.

Lemma step_times e last r r' :
  run_ok r -> times_ok last r -> clock_ok last [e] = true ->
  step e r = Some r' -> times_ok (last_reading e last) r'.
Proof.
  intros [[Hcap Hav Hsl Hfull Hq Hnd Hw Hc Hidle] Hlen Htl _ _] [Hs Hi Hcon]
         Hclock Hstep.
  destruct e as [idx|idx o seconds now end_time]; simpl in *.
  - unfold callback_resume in Hstep.
    destruct (procs r !! idx) as [[]|]; try done.
    destruct (tasks r !! idx) as [task|]; try done.
    injection Hstep as <-.
    destruct r as [[tot av st pend tet ui con] ts tt ct ps]; simpl in *.
    split; simpl; try done.
    apply console_ok_app; [done|]. intros u [?|[]]; done.
  - apply andb_prop in Hclock as [Hclock _].
    apply andb_prop in Hclock as [H1 H2].
    apply Z.leb_le in H1, H2.
    unfold callback_settle in Hstep.
    destruct (procs r !! idx) as [[]|]; try done.
    destruct (tasks r !! idx) as [task|]; try done.
    destruct r as [[tot av st pend tet ui con] ts tt ct ps]; simpl in *.
    assert (Hi' : Forall (fun t => st <= t <= end_time) tet).
    { eapply Forall_impl; [done|]. simpl. lia. }
    destruct o as [out err|].
    + assert (Hlog : console_ok
        (((con ++ [FinishedIn (ct + 1) tt task seconds])
            ++ output_block "=== stdout" out)
           ++ output_block "=== stderr" err)).
      { repeat apply console_ok_app; try done.
        - intros u [?|[]]; done.
        - intros u; apply output_block_plain.
        - intros u; apply output_block_plain. }
      destruct pend as [|w rest];
        unfold releaseSlot, log in Hstep; simpl in Hstep.
      * assert (Hi2 : Forall (fun t => st <= t <= end_time) (tet ++ [now])).
        { apply Forall_app; split; [done|]. apply Forall_singleton. lia. }
        destruct (Z.eqb_spec (av + 1) tot) as [Heq|Hne];
          injection Hstep as <-; simpl.
        -- split; simpl; [lia|done|].
           destruct (utilization_range st tot end_time (tet ++ [now]))
             as [Hpos Hzero]; try done; try lia.
           { rewrite length_app; simpl; lia. }
           intros u Hin. apply in_app_or in Hin as [Hin|Hin].
           ++ destruct (Hlog u Hin) as [?|[-> ?]]; [by left|].
              right; split; [done|]. apply in_or_app; by left.
           ++ destruct Hin as [?|[Hu|[]]]; [done|].
              injection Hu as <-.
              destruct (Z.eq_dec st end_time) as [->|Hne].
              ** right. rewrite Hzero by done. split; [done|].
                 apply in_or_app; right. left. f_equal. lia.
              ** left. apply Hpos. lia.
        -- split; simpl; [lia|done|done].
      * injection Hstep as <-; simpl. split; simpl; [lia|done|done].
    + injection Hstep as <-; simpl. split; simpl; [lia|done|done].
Qed.

Lemma run_events_times evs : forall last r r',
  run_ok r -> times_ok last r -> clock_ok last evs = true ->
  run_events evs r = Some r' -> exists last', times_ok last' r'.
Proof.
  induction evs as [|e evs IH]; intros last r r' Hok Ht Hclock Hrun;
    cbn [run_events] in Hrun.
  - injection Hrun as <-. by exists last.
  - destruct (step e r) as [r1|] eqn:Hstep; [|done].
    assert (Hce : clock_ok last [e] = true /\
                  clock_ok (last_reading e last) evs = true).
    { destruct e; simpl in *; [done|].
      apply andb_prop in Hclock as [-> ->]. done. }
    destruct Hce as [Hc1 Hc2].
    eapply (IH (last_reading e last) r1); try done.
    + by eapply step_ok.
    + by eapply step_times.
Qed.

End Utilization.

(** * Runs of the scheduler *)

Section Runs.

Implicit Types (r : run) (s : state) (evs : list event).

Lemma releaseSlot_static now end_time s :
  total_slots (fst (releaseSlot now end_time s)) = total_slots s
  /\ start_time (fst (releaseSlot now end_time s)) = start_time s.
Proof.
  destruct s as [tot av st [|w rest] tet ui con];
    unfold releaseSlot; simpl; [|done].
  by destruct (av + 1 =? tot).
Qed.

Lemma protocol_step_total o s h s' h' :
  protocol_step o (s, h) = Some (s', h') -> total_slots s' = total_slots s.
Proof.
  destruct o as [r|now end_time]; simpl.
  - unfold acquireSlot. destruct (0 <? avail_slots s);
      intros [= <- _]; by destruct s.
  - destruct h as [|k]; [done|].
    pose proof (releaseSlot_static now end_time s) as [Ht _].
    destruct (releaseSlot now end_time s) as [s1 w]. by intros [= <- _].
Qed.

Lemma protocol_run_total ops : forall s h s' h',
  protocol_run ops (s, h) = Some (s', h') -> total_slots s' = total_slots s.
Proof.
  induction ops as [|o ops IH]; intros s h s' h' Hrun;
    cbn [protocol_run] in Hrun.
  - by injection Hrun as <- <-.
  - destruct (protocol_step o (s, h)) as [[s1 h1]|] eqn:Hstep; [|done].
    rewrite (IH _ _ _ _ Hrun). by eapply protocol_step_total.
Qed.

Lemma step_static e r r' :
  step e r = Some r' ->
  total_slots (globals r') = total_slots (globals r)
  /\ start_time (globals r') = start_time (globals r)
  /\ tasks r' = tasks r
  /\ total_tasks r' = total_tasks r.
Proof.
  destruct e as [idx|idx o seconds now end_time]; simpl.
  - unfold callback_resume.
    destruct (procs r !! idx) as [[]|]; try done.
    destruct (tasks r !! idx) as [task|]; try done.
    intros [= <-]. by destruct r as [[] ? ? ? ?].
  - unfold callback_settle.
    destruct (procs r !! idx) as [[]|]; try done.
    destruct (tasks r !! idx) as [task|]; try done.
    destruct o as [out err|]; [|by intros [= <-]].
    match goal with |- context [releaseSlot now end_time ?g] =>
      pose proof (releaseSlot_static now end_time g) as [Ht Hs];
      destruct (releaseSlot now end_time g) as [g4 woken] end.
    intros [= <-]. simpl in *. rewrite Ht, Hs.
    by destruct r as [[] ? ? ? ?].
Qed.

Lemma run_events_static evs : forall r r',
  run_events evs r = Some r' ->
  total_slots (globals r') = total_slots (globals r)
  /\ start_time (globals r') = start_time (globals r)
  /\ tasks r' = tasks r
  /\ total_tasks r' = total_tasks r.
Proof.
  induction evs as [|e evs IH]; intros r r' Hrun; cbn [run_events] in Hrun.
  - by injection Hrun as <-.
  - destruct (step e r) as [r1|] eqn:Hstep; [|done].
    destruct (step_static _ _ _ Hstep) as (<- & <- & <- & <-).
    by apply IH.
Qed.

Lemma run_events_app evs1 evs2 r :
  run_events (evs1 ++ evs2) r
  = match run_events evs1 r with
    | Some r1 => run_events evs2 r1
    | None => None
    end.
Proof.
  revert r. induction evs1 as [|e evs1 IH]; intros r; [done|].
  cbn [app run_events]. destruct (step e r); [apply IH|done].
Qed.

(** Everything that holds of the states a run passes through. *)
Lemma reachable n ts start evs r :
  1 <= n ->
  run_events evs (schedule ts (init n start)) = Some r ->
  run_ok r /\ total_slots (globals r) = n /\ start_time (globals r) = start
  /\ tasks r = ts /\ total_tasks r = length ts.
Proof.
  intros Hn Hrun.
  pose proof (schedule_ok ts n start Hn) as Hok.
  destruct (schedule_static ts n start Hn) as (_ & _ & Hts & Htot & Hst).
  destruct (run_events_static _ _ _ Hrun) as (-> & -> & -> & Htt).
  split_and!; try done.
  - by eapply run_events_ok.
  - rewrite Htt. destruct Hok as [_ _ <- _ _]. by rewrite Hts.
Qed.

Lemma step_failed e r r' i :
  run_ok r -> step e r = Some r' ->
  procs r !! i = Some Failed -> procs r' !! i = Some Failed.
Proof.
  intros [[_ _ _ _ Hq _ _ _ _] _ _ _ _] Hstep Hi.
  assert (Hne : forall j x, procs r !! j = Some x -> x <> Failed -> i <> j)
    by (intros j x Hj Hx ->; congruence).
  destruct e as [idx|idx o seconds now end_time]; simpl in Hstep.
  - unfold callback_resume in Hstep.
    destruct (procs r !! idx) as [[]|] eqn:Hp; try done.
    destruct (tasks r !! idx) as [task|]; try done.
    injection Hstep as <-; simpl.
    rewrite list_lookup_insert_ne; [done|]. intros ->; congruence.
  - unfold callback_settle in Hstep.
    destruct (procs r !! idx) as [[]|] eqn:Hp; try done.
    destruct (tasks r !! idx) as [task|]; try done.
    assert (idx <> i) by (intros ->; congruence).
    destruct o as [out err|].
    + destruct (pending_tasks (globals r)) as [|w rest] eqn:Hpend.
      * match type of Hstep with context [releaseSlot now end_time ?g] =>
          pose proof (releaseSlot_empty now end_time g) as Hrel;
          destruct (releaseSlot now end_time g) as [g4 woken] end.
        destruct Hrel as [Hw _]; [by destruct r as [[] ? ? ? ?]|].
        simpl in Hw; subst woken. injection Hstep as <-; simpl.
        by rewrite list_lookup_insert_ne.
      * rewrite (releaseSlot_waiter _ _ _ w rest) in Hstep
          by (by destruct r as [[] ? ? ? ?]).
        injection Hstep as <-; simpl.
        assert (Hw : procs r !! w = Some Waiting) by (apply Hq; by left).
        rewrite !list_lookup_insert_ne; [done|done|].
        intros ->; congruence.
    + injection Hstep as <-; simpl. by rewrite list_lookup_insert_ne.
Qed.

Lemma run_events_failed evs : forall r r' i,
  run_ok r -> run_events evs r = Some r' ->
  procs r !! i = Some Failed -> procs r' !! i = Some Failed.
Proof.
  induction evs as [|e evs IH]; intros r r' i Hok Hrun Hi;
    cbn [run_events] in Hrun.
  - by injection Hrun as <-.
  - destruct (step e r) as [r1|] eqn:Hstep; [|done].
    eapply (IH r1); [by eapply step_ok|done|by eapply step_failed].
Qed.

Lemma count_all {A} (p : A -> bool) (l : list A) :
  count p l = length l -> forall i x, l !! i = Some x -> p x = true.
Proof.
  induction l as [|a l IH]; intros Hc i x Hi; [done|].
  rewrite count_cons in Hc. cbn [length] in Hc.
  pose proof (count_le p l).
  destruct (p a) eqn:Hpa; simpl in Hc; [|lia].
  destruct i as [|i]; simplify_eq/=; [done|].
  eapply IH; [lia|done].
Qed.

(** The count equations of a reachable state, in one place. *)
Lemma accounting r :
  run_ok r ->
  (length (pending_tasks (globals r)) + count holds_slot (procs r)
   + completed_tasks r = total_tasks r)%nat.
Proof.
  intros [[_ _ _ _ _ _ Hw Hc _] Hlen _ _ _].
  pose proof (status_partition (procs r)). lia.
Qed.

End Runs.

(** * Progress of a run, and the runtime's policies *)

Section Liveness.

Lemma enter_fresh l : forall r,
  events_done (procs r) = 0%nat ->
  events_done (procs (fold_left (fun r idx => callback_enter idx r) l r)) = 0%nat.
Proof.
  induction l as [|idx l IH]; intros r Hr; [done|].
  cbn [fold_left]. apply IH. unfold callback_enter.
  destruct (acquireSlot idx (globals r)) as [g granted]. cbn [procs].
  unfold events_done in *. rewrite !count_app, !count_cons.
  destruct granted; cbn; lia.
Qed.

Lemma schedule_fresh ts g : events_done (procs (schedule ts g)) = 0%nat.
Proof. unfold schedule. by apply enter_fresh. Qed.

Lemma step_counts e r r' :
  run_ok r -> step e r = Some r' ->
  events_done (procs r') = S (events_done (procs r))
  /\ count is_failed (procs r')
     = (count is_failed (procs r) + b2n (is_rejection e))%nat.
Proof.
  intros [[Hcap Hav Hsl Hfull Hq Hnd Hw Hc Hidle] Hlen Htl Hfired Hquiet] Hstep.
  unfold events_done.
  destruct e as [idx|idx [out err|] seconds now end_time]; simpl in Hstep.
  - unfold callback_resume in Hstep.
    destruct (procs r !! idx) as [[]|] eqn:Hp; try done.
    destruct (tasks r !! idx) as [task|] eqn:Ht; try done.
    injection Hstep as <-. cbn [procs is_rejection b2n].
    pose proof (count_insert is_running _ _ _ Running Hp) as C1.
    pose proof (count_insert is_finished _ _ _ Running Hp) as C2.
    pose proof (count_insert is_failed _ _ _ Running Hp) as C3.
    cbn in C1, C2, C3. lia.
  - unfold callback_settle in Hstep.
    destruct (procs r !! idx) as [[]|] eqn:Hp; try done.
    destruct (tasks r !! idx) as [task|] eqn:Ht; try done.
    pose proof (count_insert is_running _ _ _ Finished Hp) as C1.
    pose proof (count_insert is_finished _ _ _ Finished Hp) as C2.
    pose proof (count_insert is_failed _ _ _ Finished Hp) as C3.
    cbn in C1, C2, C3.
    destruct (releaseSlot now end_time _) as [g4 woken] eqn:Hrel.
    injection Hstep as <-. cbn [procs is_rejection b2n].
    destruct (pending_tasks (globals r)) as [|w rest] eqn:Hpend.
    + match type of Hrel with releaseSlot _ _ ?g = _ =>
        destruct (releaseSlot_empty now end_time g) as [Hnone _];
          [unfold log; cbn; exact Hpend|] end.
      rewrite Hrel in Hnone. cbn in Hnone. subst woken. cbn [resolve]. lia.
    + match type of Hrel with releaseSlot _ _ ?g = _ =>
        rewrite (releaseSlot_waiter now end_time g w rest) in Hrel;
          [|unfold log; cbn; exact Hpend] end.
      injection Hrel as <- <-. cbn [resolve].
      assert (Hw' : procs r !! w = Some Waiting).
      { apply Hq. by left. }
      assert (Hne : idx <> w) by (intros ->; congruence).
      assert (Hw2 : <[idx := Finished]> (procs r) !! w = Some Waiting).
      { by rewrite list_lookup_insert_ne. }
      pose proof (count_insert is_running _ _ _ Granted Hw2) as D1.
      pose proof (count_insert is_finished _ _ _ Granted Hw2) as D2.
      pose proof (count_insert is_failed _ _ _ Granted Hw2) as D3.
      cbn in D1, D2, D3. lia.
  - unfold callback_settle in Hstep.
    destruct (procs r !! idx) as [[]|] eqn:Hp; try done.
    destruct (tasks r !! idx) as [task|] eqn:Ht; try done.
    injection Hstep as <-. cbn [procs is_rejection b2n].
    pose proof (count_insert is_running _ _ _ Failed Hp) as C1.
    pose proof (count_insert is_finished _ _ _ Failed Hp) as C2.
    pose proof (count_insert is_failed _ _ _ Failed Hp) as C3.
    cbn in C1, C2, C3. lia.
Qed.

Lemma run_counts evs : forall r r',
  run_ok r -> run_events evs r = Some r' ->
  events_done (procs r') = (events_done (procs r) + length evs)%nat
  /\ count is_failed (procs r')
     = (count is_failed (procs r) + rejections evs)%nat.
Proof.
  induction evs as [|e evs IH]; intros r r' Hok Hrun; cbn [run_events] in Hrun.
  - injection Hrun as <-. unfold rejections, count. cbn. lia.
  - destruct (step e r) as [r1|] eqn:Hstep; [|done].
    destruct (step_counts _ _ _ Hok Hstep) as [H1 H2].
    destruct (IH r1 r' (step_ok _ _ _ Hok Hstep) Hrun) as [H3 H4].
    unfold rejections in *. rewrite count_cons. cbn [length]. lia.
Qed.

Lemma failed_holds (l : list status) :
  (count is_failed l + count is_running l <= count holds_slot l)%nat.
Proof.
  induction l as [|st l IH]; [done|].
  rewrite !count_cons. destruct st; simpl; lia.
Qed.

Lemma count_find {A} (p : A -> bool) (l : list A) :
  (0 < count p l)%nat -> exists i x, l !! i = Some x /\ p x = true.
Proof.
  induction l as [|a l IH]; intros Hc; [by cbn in Hc; lia|].
  rewrite count_cons in Hc. destruct (p a) eqn:Hpa.
  - by exists 0%nat, a.
  - destruct IH as (i & x & Hi & Hx); [cbn in Hc; lia|]. by exists (S i), x.
Qed.

Lemma holds_active (l : list status) :
  count holds_slot l = (count is_active l + count is_failed l)%nat.
Proof.
  induction l as [|st l IH]; [done|].
  rewrite !count_cons. destruct st; simpl; lia.
Qed.

(** Without a failed task, an unfinished run has an event to take. *)
Lemma run_progress r :
  run_ok r -> count is_failed (procs r) = 0%nat ->
  (completed_tasks r < total_tasks r)%nat ->
  exists e, is_rejection e = false /\ is_Some (step e r).
Proof.
  intros Hok Hnf Hlt. pose proof (accounting r Hok) as Hacc.
  destruct Hok as [[Hcap Hav Hsl Hfull Hq Hnd Hw Hc Hidle] Hlen Htl Hfired Hquiet].
  assert (Hact : (0 < count is_active (procs r))%nat).
  { rewrite holds_active, Hnf in *.
    destruct (pending_tasks (globals r)) as [|w rest] eqn:Hp.
    - simpl in Hacc. lia.
    - assert (avail_slots (globals r) = 0) by (by apply Hfull). lia. }
  destruct (count_find _ _ Hact) as (i & st & Hi & Hst).
  assert (Hlt' : (i < length (tasks r))%nat).
  { rewrite Htl, <- Hlen. by eapply lookup_lt_Some. }
  destruct (lookup_lt_is_Some_2 _ _ Hlt') as [task Ht].
  destruct st; try done.
  - exists (Resume i). split; [done|]. cbn. unfold callback_resume.
    rewrite Hi, Ht. eauto.
  - exists (Settle i (Fulfilled "" "") 0 0 0). split; [done|]. cbn.
    unfold callback_settle. rewrite Hi, Ht.
    destruct (releaseSlot _ _ _). eauto.
Qed.

(** A run under a policy is a run of the event loop. *)
Lemma node_run_ended policy evs r p :
  node_run policy evs (Ended r) = Some p -> evs = [] /\ p = Ended r.
Proof. destruct evs as [|e evs]; cbn; [by intros [= <-]|done]. Qed.

Lemma node_run_sound policy evs : forall r p,
  node_run policy evs (Alive r) = Some p ->
  run_events evs r = Some (last_state p).
Proof.
  induction evs as [|e evs IH]; intros r p Hrun; cbn in Hrun.
  - by injection Hrun as <-.
  - cbn [run_events]. destruct (step e r) as [r1|]; [|done].
    destruct policy; [by apply IH|].
    destruct (is_rejection e); [|by apply IH].
    by apply node_run_ended in Hrun as [-> ->].
Qed.

End Liveness.

(** Two commands on one slot run one after the other; on two slots both
    start at once. *)
Example two_tasks_one_slot :
  procs (schedule ["sleep 1"; "sleep 1"] (init 1 0)) = [Granted; Waiting]
  /\ option_map (fun r => (procs r, console (globals r)))
       (run_events [Resume 0; Settle 0 (Fulfilled "" "") 1 1000 1000; Resume 1;
                    Settle 1 (Fulfilled "" "") 1 2000 2000]
                   (schedule ["sleep 1"; "sleep 1"] (init 1 0)))
     = Some ([Finished; Finished],
             [Starting 1 2 "sleep 1"; FinishedIn 1 2 "sleep 1" 1;
              Starting 2 2 "sleep 1"; FinishedIn 2 2 "sleep 1" 1;
              CompletedIn 2000; Utilization (JFinite (200000 # 2000))]).
Proof. split; reflexivity. Qed.

Example two_tasks_two_slots :
  procs (schedule ["sleep 1"; "sleep 1"] (init 2 0)) = [Granted; Granted].
Proof. reflexivity. Qed.

(** * The claims about the slot semaphore and the scheduler *)

(** C1, as the code has it. From the initial state of a run with capacity
    [n >= 1], every sequence of acquire and release operations in which a
    release is issued by a task that holds a slot keeps [available] between
    0 and the capacity, keeps [available] plus the number of tasks in
    possession of a slot equal to the capacity, and leaves waiters queued
    only while [available] is 0;
    and in every state that [schedule] and the event loop reach for a task
    list [ts], the tasks running a command are at most [n]. *)
Theorem semaphore_invariant n start ops s holders ts evs r :
  1 <= n ->
  protocol_run ops (init n start, 0%nat) = Some (s, holders) ->
  run_events evs (schedule ts (init n start)) = Some r ->
  (0 <= avail_slots s <= n
   /\ avail_slots s + Z.of_nat holders = n
   /\ (pending_tasks s <> [] -> avail_slots s = 0)
   /\ Z.of_nat holders <= n)
  /\ (0 <= avail_slots (globals r) <= n
      /\ avail_slots (globals r) + Z.of_nat (count holds_slot (procs r)) = n
      /\ (pending_tasks (globals r) <> [] -> avail_slots (globals r) = 0)
      /\ Z.of_nat (count is_running (procs r)) <= n).
Proof.
  intros Hn Hprot Hrun. split.
  - pose proof (protocol_run_total _ _ _ _ _ Hprot) as Htot. simpl in Htot.
    destruct (protocol_run_inv ops _ _ _ _ (init_inv n start ltac:(lia)) Hprot)
      as (Hr & Hsum & Hq).
    rewrite Htot in *. split_and!; try done; lia.
  - destruct (reachable _ _ _ _ _ Hn Hrun)
      as ([[Hcap Hav Hsl Hfull _ _ _ _ _] _ _ _ _] & Htot & _).
    pose proof (running_holds (procs r)).
    rewrite Htot in *. split_and!; try done; lia.
Qed.

Lemma semaphore_invariant_witness :
  Z.of_nat (count is_running [Running; Running; Waiting]) <= 2.
Proof.
  refine (proj2 (proj2 (proj2 (proj2
    (semaphore_invariant 2 0 [Acquire 0; Acquire 1; Acquire 2; Release 4 4]
       (mkState 2 0 0 [] [] true []) 2%nat
       ["sleep 1"; "sleep 2"; "sleep 3"] [Resume 0; Resume 1]
       (mkRun (mkState 2 0 0 [2%nat] [] true
                 [Starting 1 3 "sleep 1"; Starting 2 3 "sleep 2"])
              ["sleep 1"; "sleep 2"; "sleep 3"] 3 0
              [Running; Running; Waiting])
       _ _ _))))); [lia|reflexivity|reflexivity].
Defined.

(** C1, as stated, fails. [releaseSlot] does not ask whether anyone holds a
    slot: on a semaphore of capacity 1 a release that no acquire preceded
    leaves [avail_slots] at 2, and the next two callers are both granted.
    And the tasks running a command are not those that hold a slot: after
    the only command of a run was rejected no task runs and none waits, and
    [avail_slots] is still 0 on a capacity of 1. *)
Lemma release_without_holder :
  avail_slots (fst (sem_run [Release 0 0] (init 1 0))) = 2
  /\ snd (sem_run [Release 0 0; Acquire 0; Acquire 1] (init 1 0))
     = [Free; Grant 0%nat; Grant 1%nat]
  /\ option_map
       (fun r => (pending_tasks (globals r), avail_slots (globals r),
                  count is_running (procs r), total_slots (globals r)))
       (run_events [Resume 0; Settle 0 Rejected 0 5 5]
                   (schedule ["false"] (init 1 0)))
     = Some ([], 0, 0%nat, 1).
Proof. split_and!; reflexivity. Qed.

(** C3. Waiters are granted in the order in which they were suspended: if
    [T1] was the [i]-th task to find the semaphore full and [T2] the
    [j]-th, [i < j], and [T2] has been woken, then [T1] was woken, and woken
    earlier. [acquireSlot] queues at the tail, [releaseSlot] takes from the
    head. *)
Theorem fifo_admission n start ops i j T1 T2 :
  let l := snd (sem_run ops (init n start)) in
  (i < j)%nat ->
  suspended_of l !! i = Some T1 ->
  suspended_of l !! j = Some T2 ->
  (j < length (woken_of l))%nat ->
  (woken_of l !! i = Some T1 /\ woken_of l !! j = Some T2)
  /\ suspended_of l
     = woken_of l ++ pending_tasks (fst (sem_run ops (init n start)))
  /\ (forall s r,
        pending_tasks (fst (acquireSlot r s))
        = if 0 <? avail_slots s then pending_tasks s
          else pending_tasks s ++ [r])
  /\ (forall s now end_time,
        snd (releaseSlot now end_time s) = head (pending_tasks s)
        /\ pending_tasks (fst (releaseSlot now end_time s))
           = tail (pending_tasks s)).
Proof.
  intros l Hij H1 H2 Hj.
  pose proof (queue_order ops (init n start)) as Hq. simpl in Hq.
  fold l in Hq. split_and!.
  - rewrite Hq in H1. rewrite lookup_app_l in H1 by lia. done.
  - rewrite Hq in H2. rewrite lookup_app_l in H2 by lia. done.
  - done.
  - intros s r. unfold acquireSlot.
    destruct (0 <? avail_slots s); by destruct s.
  - intros s now end_time.
    destruct s as [tot av st [|w rest] tet ui con];
      unfold releaseSlot; simpl; [|done].
    by destruct (av + 1 =? tot).
Qed.

Lemma fifo_admission_witness :
  woken_of (snd (sem_run
     [Acquire 0; Acquire 1; Acquire 2; Release 5 5; Release 6 6] (init 1 0)))
    !! 0%nat = Some 1%nat
  /\ woken_of (snd (sem_run
     [Acquire 0; Acquire 1; Acquire 2; Release 5 5; Release 6 6] (init 1 0)))
    !! 1%nat = Some 2%nat.
Proof.
  refine (proj1 (fifo_admission 1 0
    [Acquire 0; Acquire 1; Acquire 2; Release 5 5; Release 6 6]
    0 1 1 2 _ _ _ _)); simpl; [lia|reflexivity|reflexivity|lia].
Defined.

(** C4. [releaseSlot] with a waiter queued calls the resolver at the head of
    the queue, removes it and changes nothing else, [avail_slots] included;
    with no waiter queued it adds one to [avail_slots] and the queue stays
    empty. Both variants. *)
Theorem release_frame tot av st tet ui con now end_time w rest :
  releaseSlot now end_time (mkState tot av st (w :: rest) tet ui con)
  = (mkState tot av st rest tet ui con, Some w)
  /\ snd (releaseSlot now end_time (mkState tot av st [] tet ui con)) = None
  /\ avail_slots (fst (releaseSlot now end_time (mkState tot av st [] tet ui con)))
     = av + 1
  /\ pending_tasks
       (fst (releaseSlot now end_time (mkState tot av st [] tet ui con))) = []
  /\ Bare.releaseSlot (Bare.mkState av (w :: rest))
     = (Bare.mkState av rest, Some w)
  /\ Bare.releaseSlot (Bare.mkState av []) = (Bare.mkState (av + 1) [], None).
Proof.
  split_and!; try done; unfold releaseSlot; simpl; by destruct (av + 1 =? tot).
Qed.

(** C9. On every sequence of operations the two variants of the semaphore
    take the same decisions and pass through the same [(avail_slots,
    pending_tasks)]; beyond that the extended variant only records the idle
    stamp and, possibly, prints the summary, both on a release that finds
    no waiter. *)
Theorem bare_extended_agree ops s o :
  Bare.sem_run ops (sem_of s)
  = (sem_of (fst (sem_run ops s)), snd (sem_run ops s))
  /\ Bare.sem_step o (sem_of s)
     = (sem_of (fst (sem_step o s)), snd (sem_step o s))
  /\ extra_effect o s (fst (sem_step o s)).
Proof.
  split_and!.
  - pose proof (sem_run_sem ops s) as H. by destruct (sem_run ops s).
  - pose proof (sem_step_sem o s) as H. by destruct (sem_step o s).
  - apply sem_step_extra.
Qed.

(** C5, as the code has it. In a run of [M >= 1] tasks with capacity
    [n >= 1], the summary is on the console exactly from the [M]-th
    completed task on: it is printed by the release that brings
    [avail_slots] back to the capacity, which is the release of the [M]-th
    task to finish; no event can follow that release, so it is not printed
    again.  Once a command has failed, no task count reaches [M] and no
    summary is printed.  While no command has failed, a run that is not
    complete always has an event to take, it takes [2 * M] events at most
    (a start and a completion for each task), and after [2 * M] events it is
    complete: the summary is printed then, exactly once. *)
Theorem summary_fires_at_last_release n ts start evs r :
  1 <= n -> ts <> [] ->
  run_events evs (schedule ts (init n start)) = Some r ->
  (completed_tasks r <= length ts)%nat
  /\ summaries r = (if decide (completed_tasks r = length ts) then 1 else 0)%nat
  /\ (avail_slots (globals r) = n <-> completed_tasks r = length ts)
  /\ (completed_tasks r = length ts -> forall e, step e r = None)
  /\ ((forall i st, procs r !! i = Some st -> st = Waiting \/ st = Finished) ->
      completed_tasks r = length ts)
  /\ ((0 < rejections evs)%nat ->
      (completed_tasks r < length ts)%nat /\ summaries r = 0%nat)
  /\ (rejections evs = 0%nat ->
      (length evs <= 2 * length ts)%nat
      /\ (length evs = (2 * length ts)%nat <-> completed_tasks r = length ts)
      /\ ((completed_tasks r < length ts)%nat ->
          exists e, is_rejection e = false /\ is_Some (step e r))).
Proof.
  intros Hn Hts Hrun.
  destruct (reachable _ _ _ _ _ Hn Hrun) as (Hok & Htot & _ & _ & Htt).
  pose proof (accounting r Hok) as Hacc.
  destruct (run_counts evs _ _ (schedule_ok ts n start Hn) Hrun)
    as [Hdone Hfailed].
  pose proof (schedule_fresh ts (init n start)) as Hfresh.
  rewrite Hfresh in Hdone.
  assert (Hnf0 : count is_failed (procs (schedule ts (init n start))) = 0%nat).
  { unfold events_done in Hfresh. lia. }
  rewrite Hnf0 in Hfailed. cbn [Nat.add] in Hdone, Hfailed.
  pose proof (failed_holds (procs r)) as Hfh.
  pose proof (status_partition (procs r)) as Hpart.
  pose proof (run_progress r Hok) as Hprog.
  destruct Hok as [[Hcap Hav Hsl Hfull Hq Hnd Hw Hc Hidle] Hlen Htl Hfired Hquiet].
  assert (HM : (0 < length ts)%nat) by (destruct ts; [done|simpl; lia]).
  rewrite Htt in *. rewrite Htot in *.
  assert (Hiff : avail_slots (globals r) = n <-> completed_tasks r = length ts).
  { split.
    - intros Hfullcap.
      destruct (pending_tasks (globals r)) as [|w rest] eqn:Hp.
      + simpl in Hacc. lia.
      + assert (avail_slots (globals r) = 0) by (by apply Hfull). lia.
    - intros Hdone'. lia. }
  split_and!; try done.
  - lia.
  - case_decide as Hd; [by apply Hfired|]. apply Hquiet. lia.
  - intros Hdone' e.
    assert (Hall : forall i x, procs r !! i = Some x -> is_finished x = true).
    { apply count_all. lia. }
    destruct e as [idx|idx o seconds now end_time]; simpl.
    + unfold callback_resume.
      destruct (procs r !! idx) as [x|] eqn:Hx; [|done].
      specialize (Hall _ _ Hx). by destruct x.
    + unfold callback_settle.
      destruct (procs r !! idx) as [x|] eqn:Hx; [|done].
      specialize (Hall _ _ Hx). by destruct x.
  - intros Hrest.
    assert (count holds_slot (procs r) = 0%nat) as Hnone.
    { apply count_none. intros x Hin.
      apply list_elem_of_In, list_elem_of_lookup in Hin as [i Hi].
      by destruct (Hrest _ _ Hi) as [-> | ->]. }
    apply Hiff. lia.
  - intros Hrej.
    assert (Hlt : (completed_tasks r < length ts)%nat) by lia.
    split; [done|]. apply Hquiet. by left.
  - intros Hrej. unfold events_done in Hdone.
    split_and!.
    + lia.
    + lia.
    + intros Hlt. apply Hprog; [lia|done].
Qed.

Lemma summary_fires_at_last_release_witness :
  summaries
    (mkRun (mkState 1 1 0 [] [20] false
              [Starting 1 1 "true"; FinishedIn 1 1 "true" 0;
               CompletedIn 20; Utilization (JFinite (2000 # 20))])
           ["true"] 1 1 [Finished]) = 1%nat.
Proof.
  refine (proj1 (proj2
    (summary_fires_at_last_release 1 ["true"] 0
       [Resume 0; Settle 0 (Fulfilled "" "") 0 20 20] _ _ _ _)));
    [lia|discriminate|reflexivity].
Defined.

(** C5, as stated, fails: in the run of the single command [false] on one
    slot the command is rejected, the slot is never released, no summary is
    printed and no event is left to take; a runtime that ends the process
    on the unhandled rejection ends it in that same state. *)
Lemma rejected_run_has_no_summary :
  run_events [Resume 0; Settle 0 Rejected 0 5 5] (schedule ["false"] (init 1 0))
  = Some (mkRun (mkState 1 0 0 [] [] true [Starting 1 1 "false"])
                ["false"] 1 0 [Failed])
  /\ summaries (mkRun (mkState 1 0 0 [] [] true [Starting 1 1 "false"])
                      ["false"] 1 0 [Failed]) = 0%nat
  /\ (forall e,
        step e (mkRun (mkState 1 0 0 [] [] true [Starting 1 1 "false"])
                      ["false"] 1 0 [Failed]) = None)
  /\ node_run EndsProcess [Resume 0; Settle 0 Rejected 0 5 5]
       (Alive (schedule ["false"] (init 1 0)))
     = Some (Ended (mkRun (mkState 1 0 0 [] [] true [Starting 1 1 "false"])
                          ["false"] 1 0 [Failed])).
Proof.
  split_and!; try reflexivity.
  intros [[|idx]|[|idx] o seconds now end_time]; reflexivity.
Qed.

(** C2, as the code has it. A command that fails ends its callback at the
    rejected [await], with the status of that task as the only change of
    the state (the semaphore, the counter and the console are as before),
    in both variants; [releaseSlot] is not reached for it.  Nothing in the
    source handles the rejection, and whether the runtime then lets the
    process go on or ends it, in every state the process is in afterwards
    [avail_slots] is below the capacity, the task is not counted as
    finished and no summary is printed; when the runtime ends the process,
    no event of any task follows the rejection. *)
Theorem failure_keeps_slot policy n ts start evs1 idx seconds now end_time
    evs2 r1 p :
  1 <= n ->
  node_run policy evs1 (Alive (schedule ts (init n start))) = Some (Alive r1) ->
  node_run policy (Settle idx Rejected seconds now end_time :: evs2) (Alive r1)
  = Some p ->
  (exists r2,
     callback_settle idx Rejected seconds now end_time r1 = Some r2
     /\ globals r2 = globals r1
     /\ completed_tasks r2 = completed_tasks r1
     /\ procs r2 = <[idx := Failed]> (procs r1)
     /\ (policy = EndsProcess -> evs2 = [] /\ p = Ended r2))
  /\ procs (last_state p) !! idx = Some Failed
  /\ avail_slots (globals (last_state p)) < n
  /\ (completed_tasks (last_state p) < length ts)%nat
  /\ summaries (last_state p) = 0%nat
  /\ (forall b b',
        Bare.callback_settle idx Rejected seconds b = Some b' ->
        Bare.sem b' = Bare.sem b /\ Bare.console b' = Bare.console b
        /\ Bare.procs b' = <[idx := Failed]> (Bare.procs b)).
Proof.
  intros Hn Hnode1 Hnode.
  pose proof (node_run_sound _ _ _ _ Hnode1) as Hrun1.
  pose proof (node_run_sound _ _ _ _ Hnode) as Hrun.
  cbn [last_state] in Hrun1. set (r := last_state p) in *.
  destruct (reachable _ _ _ _ _ Hn Hrun1) as (Hok1 & _).
  cbn [run_events step] in Hrun.
  cbn [node_run node_step step] in Hnode.
  destruct (callback_settle idx Rejected seconds now end_time r1)
    as [r2|] eqn:Hstep; [|done].
  assert (Hfail : globals r2 = globals r1 /\ completed_tasks r2 = completed_tasks r1
                  /\ procs r2 = <[idx := Failed]> (procs r1)
                  /\ procs r2 !! idx = Some Failed).
  { unfold callback_settle in Hstep.
    destruct (procs r1 !! idx) as [[]|] eqn:Hp; try done.
    destruct (tasks r1 !! idx) as [task|]; try done.
    injection Hstep as <-; simpl. split_and!; try done.
    apply list_lookup_insert_eq. by eapply lookup_lt_Some. }
  destruct Hfail as (Hg & Hc & Hp & Hf).
  assert (Hrun' : run_events (evs1 ++ Settle idx Rejected seconds now end_time
                                :: evs2) (schedule ts (init n start)) = Some r).
  { rewrite run_events_app, Hrun1. cbn [run_events step]. by rewrite Hstep. }
  destruct (reachable _ _ _ _ _ Hn Hrun') as (Hok & Htot & _ & _ & Htt).
  assert (Hf' : procs r !! idx = Some Failed).
  { apply (run_events_failed evs2 r2 r idx); [|done|done].
    by apply (reject_ok idx seconds now end_time r1 r2). }
  pose proof (accounting r Hok) as Hacc.
  assert (Hpos : (0 < count holds_slot (procs r))%nat).
  { eapply (count_pos _ _ Failed); [|done].
    apply list_elem_of_In, list_elem_of_lookup. eauto. }
  destruct Hok as [[Hcap Hav Hsl Hfull Hq Hnd Hw Hcc Hidle] Hlen Htl Hfired Hquiet].
  split_and!; try done.
  - exists r2. split_and!; try done.
    intros ->. cbn [is_rejection] in Hnode.
    by apply node_run_ended in Hnode.
  - lia.
  - lia.
  - apply Hquiet. lia.
  - intros b b'. unfold Bare.callback_settle.
    destruct (Bare.procs b !! idx) as [[]|]; try done.
    destruct (Bare.tasks b !! idx) as [task|]; try done.
    by intros [= <-].
Qed.

Lemma failure_keeps_slot_witness :
  avail_slots (globals
    (mkRun (mkState 1 0 0 [1%nat] [] true [Starting 1 2 "false"])
           ["false"; "true"] 2 0 [Failed; Waiting])) < 1.
Proof.
  refine (proj1 (proj2 (proj2
    (failure_keeps_slot EndsProcess 1 ["false"; "true"] 0 [Resume 0] 0 0 5 5 []
       (mkRun (mkState 1 0 0 [1%nat] [] true [Starting 1 2 "false"])
              ["false"; "true"] 2 0 [Running; Waiting])
       (Ended (mkRun (mkState 1 0 0 [1%nat] [] true [Starting 1 2 "false"])
              ["false"; "true"] 2 0 [Failed; Waiting]))
       _ _ _))));
    [lia|reflexivity|reflexivity].
Defined.

(** C2, as stated, fails: with one slot and the two commands [false] and
    [true], the first command is rejected; the slot is not released
    ([avail_slots] stays 0), the task is not counted as finished, the second
    task is never started (no event is enabled any more) and no summary is
    printed. *)
Lemma failure_leaks_slot :
  run_events [Resume 0; Settle 0 Rejected 0 5 5]
             (schedule ["false"; "true"] (init 1 0))
  = Some (mkRun (mkState 1 0 0 [1%nat] [] true [Starting 1 2 "false"])
                ["false"; "true"] 2 0 [Failed; Waiting])
  /\ (forall e,
        step e (mkRun (mkState 1 0 0 [1%nat] [] true [Starting 1 2 "false"])
                      ["false"; "true"] 2 0 [Failed; Waiting]) = None)
  /\ Bare.run_events [Resume 0; Settle 0 Rejected 0 5 5]
                     (Bare.schedule ["false"; "true"] (Bare.mkState 1 []))
     = Some (Bare.mkRun (Bare.mkState 0 [1%nat]) ["false"; "true"]
                        [Failed; Waiting] [BareStarting "false"]).
Proof.
  split_and!; try reflexivity.
  intros [[|[|idx]]|[|[|idx]] o seconds now end_time]; reflexivity.
Qed.

(** C6, as the code has it. In a run whose clock never goes back, a
    utilization figure printed after a run of positive duration lies
    between 0 and 100; and a single task on a single slot that holds the
    slot until the end of the run ([now = end_time]) yields 100. *)
Theorem utilization_bounds n ts start evs r u :
  1 <= n -> clock_ok start evs = true ->
  run_events evs (schedule ts (init n start)) = Some r ->
  In (Utilization u) (console (globals r)) ->
  (forall d, In (CompletedIn d) (console (globals r)) -> 0 < d) ->
  pct_ok u
  /\ (forall task out err seconds t,
        start < t ->
        exists r1 q,
          run_events [Resume 0; Settle 0 (Fulfilled out err) seconds t t]
                     (schedule [task] (init 1 start)) = Some r1
          /\ In (Utilization (JFinite q)) (console (globals r1))
          /\ (q == 100)%Q
          /\ summaries r1 = 1%nat).
Proof.
  intros Hn Hclock Hrun Hu Hdur. split.
  - pose proof (schedule_ok ts n start Hn) as Hok0.
    destruct (schedule_static ts n start Hn)
      as ([_ _ Hcon Htet _] & _ & _ & _ & Hst).
    assert (Ht0 : times_ok start (schedule ts (init n start))).
    { split; [lia|by rewrite Htet|]. rewrite Hcon. by intros ? []. }
    destruct (run_events_times _ _ _ _ Hok0 Ht0 Hclock Hrun) as [last' [_ _ Hc]].
    destruct (Hc u Hu) as [?|[_ Hzero]]; [done|].
    specialize (Hdur 0 Hzero). lia.
  - intros task out err seconds t Hlt.
    set (a := (t - start) * 1).
    assert (Ha : 0 < a) by (unfold a; lia).
    exists (mkRun
      (mkState 1 1 start [] [t] false
         ((([Starting 1 1 task; FinishedIn 1 1 task seconds]
              ++ output_block "=== stdout" out)
             ++ output_block "=== stderr" err)
            ++ [CompletedIn (t - start);
                Utilization (JFinite (inject_Z a / inject_Z a * 100))]))
      [task] 1 1 [Finished]),
      (inject_Z a / inject_Z a * 100)%Q.
    split_and!.
    + unfold schedule; simpl. unfold callback_enter, callback_resume; simpl.
      unfold callback_settle; simpl. unfold releaseSlot, log, fin; simpl.
      unfold utilization_of, unused_area_of, js_div; simpl.
      replace ((t - start) * 1 - (0 + (t - t))) with a by (unfold a; lia).
      fold a. destruct (Z.eqb_spec a 0) as [?|_]; [lia|]. done.
    + cbn [globals console]. apply in_or_app. right. right. by left.
    + by apply pct_full.
    + unfold summaries; cbn [globals console].
      rewrite !count_app, !count_output_block, !count_cons, !count_nil. done.
Qed.

Lemma utilization_bounds_witness :
  pct_ok (JFinite (2000 # 20)).
Proof.
  refine (proj1
    (utilization_bounds 1 ["true"] 0
       [Resume 0; Settle 0 (Fulfilled "" "") 0 20 20]
       (mkRun (mkState 1 1 0 [] [20] false
                 [Starting 1 1 "true"; FinishedIn 1 1 "true" 0;
                  CompletedIn 20; Utilization (JFinite (2000 # 20))])
              ["true"] 1 1 [Finished])
       (JFinite (2000 # 20)) _ _ _ _ _));
    [lia|reflexivity|reflexivity|simpl; tauto|].
  intros d [?|[?|[Hd|[?|[]]]]]; try discriminate. injection Hd as <-. lia.
Defined.

(** C6, as stated, fails on a run without duration: when the clock still
    reads [start_time] at the last release, [fin] divides zero by zero and
    the figure printed is NaN. *)
Lemma utilization_zero_duration :
  clock_ok 0 [Resume 0; Settle 0 (Fulfilled "" "") 0 0 0] = true
  /\ option_map (fun r => console (globals r))
       (run_events [Resume 0; Settle 0 (Fulfilled "" "") 0 0 0]
                   (schedule ["true"] (init 1 0)))
     = Some [Starting 1 1 "true"; FinishedIn 1 1 "true" 0;
             CompletedIn 0; Utilization JNaN]
  /\ ~ pct_ok JNaN.
Proof.
  split_and!; try reflexivity. by intros (q & Hq & _).
Qed.

(** * The workload expansion *)

Section Workload.

Implicit Types (l s rest : string) (lines tasks : list string).

Lemma prefix_cons a b s1 s2 :
  String.prefix (String a s1) (String b s2)
  = Ascii.eqb a b && String.prefix s1 s2.
Proof.
  cbn [String.prefix]. destruct (ascii_dec a b) as [->|Hne].
  - by rewrite Ascii.eqb_refl.
  - apply Ascii.eqb_neq in Hne. by rewrite Hne.
Qed.

Lemma split_cons c rest :
  split EOL (String c rest)
  = if Ascii.eqb LF c then "" :: split EOL rest
    else match split EOL rest with
         | piece :: pieces => String c piece :: pieces
         | [] => [String c ""]
         end.
Proof.
  unfold split, EOL. cbn [split_from]. rewrite prefix_cons.
  cbn [String.length Nat.sub].
  replace (String.prefix "" rest) with true by (by destruct rest).
  by rewrite andb_true_r.
Qed.

Lemma split_line l rest :
  has_eol l = false -> split EOL (l ++ EOL ++ rest) = l :: split EOL rest.
Proof.
  induction l as [|c l IH]; intros Hl; cbn [has_eol] in *.
  - change ("" +:+ EOL +:+ rest) with (String LF rest).
    rewrite split_cons. by rewrite Ascii.eqb_refl.
  - apply orb_false_elim in Hl as [Hc Hl].
    change (String c l +:+ EOL +:+ rest)
      with (String c (l +:+ EOL +:+ rest)).
    rewrite split_cons, Hc. by rewrite IH.
Qed.

Lemma split_terminated lines :
  Forall (fun l => has_eol l = false) lines ->
  split EOL (terminated lines) = lines ++ [""].
Proof.
  induction 1 as [|l lines Hl _ IH]; [done|].
  cbn [terminated fold_right]. rewrite split_line by done.
  fold (terminated lines). by rewrite IH.
Qed.

Lemma extract_nothing tasks : forall defines,
  Forall (fun l => match_defines l = []) tasks ->
  fold_left (fun defines line =>
               fold_left set_add (match_defines line) defines)
            tasks defines = defines.
Proof.
  induction tasks as [|t tasks IH]; intros defines Hall; [done|].
  apply Forall_cons in Hall as [Ht Hall]. simpl. rewrite Ht. simpl.
  by apply IH.
Qed.

Lemma expand_tasks_plain argv1 args tasks :
  Forall (fun l => match_defines l = []) tasks ->
  expand_tasks argv1 args tasks = Returned tasks.
Proof.
  intros Hall. unfold expand_tasks, extract_defines.
  rewrite extract_nothing by done. simpl.
  f_equal. induction tasks as [|t tasks IH]; [done|].
  apply Forall_cons in Hall as [_ Hall]. simpl. by rewrite IH.
Qed.

Lemma find_missing args defines d :
  In d defines -> args !! d = None ->
  exists d', List.find (fun define => negb (has_define args define)) defines
             = Some d'
             /\ In d' defines /\ args !! d' = None.
Proof.
  intros Hin Hd.
  destruct (List.find _ defines) as [d'|] eqn:Hfind.
  - apply find_some in Hfind as [Hin' Hneg]. exists d'.
    split_and!; try done.
    unfold has_define in Hneg. by destruct (args !! d').
  - pose proof (find_none _ _ Hfind d Hin) as Hneg. simpl in Hneg.
    unfold has_define in Hneg. by rewrite Hd in Hneg.
Qed.

Lemma find_bound args defines :
  (forall d, In d defines -> is_Some (args !! d)) ->
  List.find (fun define => negb (has_define args define)) defines = None.
Proof.
  intros Hall.
  destruct (List.find _ defines) as [d'|] eqn:Hfind; [|done].
  apply find_some in Hfind as [Hin Hneg].
  destruct (Hall d' Hin) as [v Hv].
  unfold has_define in Hneg. by rewrite Hv in Hneg.
Qed.

Lemma prefix_append s rest : String.prefix s (s ++ rest) = true.
Proof.
  induction s as [|c s IH]; [by destruct rest|].
  change (String c s +:+ rest) with (String c (s +:+ rest)).
  by rewrite prefix_cons, Ascii.eqb_refl, IH.
Qed.

Lemma expand_plain before matched after template :
  has_dollar template = false ->
  expand before matched after template = template.
Proof.
  induction template as [|c t IH]; intros Hd; simpl in *; [done|].
  apply orb_false_elim in Hd as [Hc Hd].
  rewrite Hc. by rewrite IH.
Qed.

(** The comma convention of the replacement values, and the dollar
    patterns of [String.prototype.replace]. *)
Example expansion_commas :
  setupWorkload "pmanage.js" (terminated ["echo @COUNT"])
    (<["COUNT" := "3,4,5"]> ∅)
  = Returned ["echo 3 4 5"].
Proof. reflexivity. Qed.

Example expansion_dollar :
  setupWorkload "pmanage.js" (terminated ["echo @V"]) (<["V" := "[$&]$$"]> ∅)
  = Returned ["echo [@V]$"].
Proof. reflexivity. Qed.

Example extraction_is_greedy :
  match_defines "@@FOO@BAR x@Y@ @ab @Cd" = ["FOO"; "BAR"; "Y"; "C"].
Proof. reflexivity. Qed.

End Workload.

(** C7. When a placeholder extracted from the workload has no entry in the
    template definition, [setupWorkload] ends the process with status 1
    after the usage text and the name of a missing placeholder; it returns
    no task list, and [main] ends there as well, before [schedule]. *)
Theorem missing_define_fails_fast argv1 contents args d cpus start n :
  In d (extract_defines
          (pop (List.filter not_comment (split EOL contents)))) ->
  args !! d = None ->
  exists d',
    In d' (extract_defines
             (pop (List.filter not_comment (split EOL contents))))
    /\ args !! d' = None
    /\ setupWorkload argv1 contents args
       = Exited 1 (usage argv1 ++ [Text ("must supply define " ++ d')])
    /\ main cpus start argv1 (Some contents) n args
       = Exited 1 (usage argv1 ++ [Text ("must supply define " ++ d')]).
Proof.
  intros Hin Hd.
  destruct (find_missing args _ d Hin Hd) as (d' & Hfind & Hin' & Hd').
  exists d'. split_and!; try done.
  - unfold setupWorkload, expand_tasks. by rewrite Hfind.
  - unfold main, setupWorkload, expand_tasks. by rewrite Hfind.
Qed.

Lemma missing_define_fails_fast_witness :
  exists d',
    In d' (extract_defines
             (pop (List.filter not_comment
                     (split EOL (terminated ["echo @FOO"])))))
    /\ (∅ : gmap string string) !! d' = None
    /\ setupWorkload "pmanage.js" (terminated ["echo @FOO"]) ∅
       = Exited 1 (usage "pmanage.js" ++ [Text ("must supply define " ++ d')])
    /\ main 4 0 "pmanage.js" (Some (terminated ["echo @FOO"])) None ∅
       = Exited 1 (usage "pmanage.js" ++ [Text ("must supply define " ++ d')]).
Proof.
  refine (missing_define_fails_fast "pmanage.js" (terminated ["echo @FOO"]) ∅ "FOO"
            4 0 None _ _); [simpl; tauto|reflexivity].
Defined.

(** C8, as the code has it. A workload text whose lines hold no placeholder,
    each line, the last one too, ended by the line terminator, expands to
    those very lines, in order, without the lines that start with [#]
    (extended variant; the bare variant keeps them) and without the empty
    piece after the last terminator. *)
Theorem no_placeholder_identity argv1 lines args :
  Forall (fun l => has_eol l = false /\ match_defines l = []) lines ->
  setupWorkload argv1 (terminated lines) args
  = Returned (List.filter not_comment lines)
  /\ Bare.setupWorkload argv1 (terminated lines) args = Returned lines.
Proof.
  intros Hall.
  assert (Heol : Forall (fun l => has_eol l = false) lines)
    by (eapply Forall_impl; [exact Hall|]; by intros ? []).
  assert (Hpl : Forall (fun l => match_defines l = []) lines)
    by (eapply Forall_impl; [exact Hall|]; by intros ? []).
  unfold setupWorkload, Bare.setupWorkload, pop.
  rewrite split_terminated by done. split.
  - rewrite List.filter_app. simpl. rewrite removelast_last.
    apply expand_tasks_plain.
    clear -Hpl. induction Hpl as [|l lines Hl _ IH]; simpl; [done|].
    destruct (not_comment l); [by constructor|done].
  - rewrite removelast_last. by apply expand_tasks_plain.
Qed.

Lemma no_placeholder_identity_witness :
  setupWorkload "pmanage.js"
    (terminated ["sleep 1"; "# a comment"; ""; "echo done"]) ∅
  = Returned ["sleep 1"; ""; "echo done"].
Proof.
  refine (proj1 (no_placeholder_identity "pmanage.js"
            ["sleep 1"; "# a comment"; ""; "echo done"] ∅ _)).
  repeat constructor.
Defined.

(** C8, as stated, fails on a text whose last line has no terminator:
    [tasks.pop()] then removes a command, not an empty piece. *)
Lemma unterminated_line_is_lost :
  setupWorkload "pmanage.js" ("sleep 1" ++ EOL ++ "sleep 2")%string ∅
  = Returned ["sleep 1"]
  /\ extract_defines ["sleep 1"; "sleep 2"] = []
  /\ List.filter not_comment ["sleep 1"; "sleep 2"] = ["sleep 1"; "sleep 2"].
Proof. split_and!; reflexivity. Qed.

(** C10. Substitution is one global textual replacement per placeholder, in
    the order of extraction, and a match is replaced whatever follows it; so
    when an extracted name is a strict prefix of another one the longer
    placeholder is rewritten with the value of the shorter: the line
    [echo @FOO @FOOBAR] with FOO bound to [x] and FOOBAR to [y] expands to
    [echo x xBAR]. *)
Theorem sequential_substitution argv1 args tasks d v rest :
  (forall d, In d (extract_defines tasks) -> is_Some (args !! d)) ->
  has_dollar v = false ->
  expand_tasks argv1 args tasks
  = Returned
      (map (fun task =>
              fold_left
                (fun t define =>
                   replace_all ("@" ++ define)
                     (commas_to_spaces (default "" (args !! define))) t)
                (extract_defines tasks) task)
           tasks)
  /\ (exists tail : string,
        replace_all ("@" ++ d) v ("@" ++ d ++ rest) = (v ++ tail)%string)
  /\ extract_defines ["echo @FOO @FOOBAR"] = ["FOO"; "FOOBAR"]
  /\ setupWorkload argv1 (terminated ["echo @FOO @FOOBAR"])
       (<["FOO" := "x"]> (<["FOOBAR" := "y"]> ∅))
     = Returned ["echo x xBAR"].
Proof.
  intros Hbound Hv. split_and!.
  - unfold expand_tasks. by rewrite find_bound.
  - unfold replace_all.
    change ("@" +:+ d +:+ rest) with (String "@" (d +:+ rest)).
    change ("@" +:+ d) with (String "@" d).
    cbn [replace_from].
    rewrite prefix_cons, Ascii.eqb_refl, prefix_append. cbn [andb].
    rewrite expand_plain by done. eauto.
  - reflexivity.
  - reflexivity.
Qed.

Lemma sequential_substitution_witness :
  expand_tasks "pmanage.js" (<["FOO" := "x"]> (<["FOOBAR" := "y"]> ∅))
    ["echo @FOO @FOOBAR"]
  = Returned ["echo x xBAR"].
Proof.
  refine (proj1 (sequential_substitution "pmanage.js"
            (<["FOO" := "x"]> (<["FOOBAR" := "y"]> ∅))
            ["echo @FOO @FOOBAR"] "FOO" "x" "BAR" _ _)); [|reflexivity].
  intros d [<-|[<-|[]]]; by eexists.
Defined.

(** * The state after [schedule] *)

Section Scheduled.

Implicit Types (n : Z) (ts : list string) (j : nat).

Lemma enter_scheduled n start ts j :
  callback_enter j (scheduled n start ts j) = scheduled n start ts (S j).
Proof.
  unfold scheduled, callback_enter; cbn [globals tasks total_tasks
    completed_tasks procs].
  destruct (le_lt_dec (Z.to_nat n) j) as [Hge|Hlt].
  - rewrite !Nat.min_l by lia.
    rewrite acquireSlot_full by (simpl; lia).
    cbv beta iota. unfold with_pending; cbn [total_slots avail_slots start_time
      pending_tasks thread_end_times uptime_interval console app].
    replace (S j - Z.to_nat n)%nat with (S (j - Z.to_nat n)) by lia.
    rewrite seq_S, replicate_S_end, app_assoc.
    by replace (Z.to_nat n + (j - Z.to_nat n))%nat with j by lia.
  - rewrite !Nat.min_r by lia.
    rewrite acquireSlot_free by (simpl; lia).
    cbv beta iota. unfold with_avail; cbn [total_slots avail_slots start_time
      pending_tasks thread_end_times uptime_interval console].
    rewrite !Nat.sub_diag, replicate_S_end. cbn [replicate seq].
    rewrite !app_nil_r. do 2 f_equal. lia.
Qed.

Lemma enter_all n start ts m : forall j,
  fold_left (fun r idx => callback_enter idx r) (seq j m)
            (scheduled n start ts j)
  = scheduled n start ts (j + m).
Proof.
  induction m as [|m IH]; intros j; cbn [seq fold_left].
  - by rewrite Nat.add_0_r.
  - rewrite enter_scheduled, IH. f_equal. lia.
Qed.

Lemma schedule_scheduled n start ts :
  schedule ts (init n start) = scheduled n start ts (length ts).
Proof.
  unfold schedule.
  replace (mkRun (init n start) ts (length ts) 0 [])
    with (scheduled n start ts 0).
  - by rewrite enter_all.
  - unfold scheduled, init. rewrite Nat.min_0_r. cbn [replicate seq app].
    do 2 f_equal. lia.
Qed.

End Scheduled.

(** * The bare scheduler inside the extended one *)

Section BareRuns.

Implicit Types (r : run) (evs : list event).

Lemma bare_line_block header text :
  omap bare_line (output_block header text) = output_block header text.
Proof. unfold output_block. by destruct (String.eqb text ""). Qed.

Lemma bare_enter idx r :
  Bare.callback_enter idx (bare_of r) = bare_of (callback_enter idx r).
Proof.
  unfold Bare.callback_enter, callback_enter, bare_of; cbn [Bare.sem Bare.tasks
    Bare.procs Bare.console].
  pose proof (acquireSlot_sem idx (globals r)) as Hsem.
  destruct (acquireSlot idx (globals r)) as [g granted] eqn:Hacq.
  rewrite Hsem. cbn [globals tasks procs]. f_equal.
  unfold acquireSlot in Hacq.
  destruct (0 <? avail_slots (globals r)); injection Hacq as <- _;
    by destruct (globals r).
Qed.

Lemma bare_enter_all l : forall r,
  fold_left (fun b idx => Bare.callback_enter idx b) l (bare_of r)
  = bare_of (fold_left (fun r idx => callback_enter idx r) l r).
Proof.
  induction l as [|idx l IH]; intros r; [done|].
  cbn [fold_left]. by rewrite bare_enter, IH.
Qed.

Lemma bare_schedule ts n start :
  Bare.schedule ts (Bare.mkState n []) = bare_of (schedule ts (init n start)).
Proof.
  unfold Bare.schedule, schedule. by rewrite <- bare_enter_all.
Qed.

Lemma bare_step e r : Bare.step e (bare_of r) = option_map bare_of (step e r).
Proof.
  destruct e as [idx|idx o seconds now end_time]; cbn [Bare.step step].
  - unfold Bare.callback_resume, callback_resume, bare_of; cbn [Bare.sem
      Bare.tasks Bare.procs Bare.console].
    destruct (procs r !! idx) as [[]|]; try done.
    destruct (tasks r !! idx) as [task|]; try done.
    cbn [option_map globals tasks procs].
    destruct (globals r); cbn. by rewrite omap_app.
  - unfold Bare.callback_settle, callback_settle, bare_of; cbn [Bare.sem
      Bare.tasks Bare.procs Bare.console].
    destruct (procs r !! idx) as [[]|]; try done.
    destruct (tasks r !! idx) as [task|]; try done.
    destruct o as [out err|]; [|done].
    match goal with |- context [releaseSlot now end_time ?g] =>
      pose proof (releaseSlot_sem now end_time g) as Hsem;
      pose proof (releaseSlot_console now end_time g) as Hcon;
      destruct (releaseSlot now end_time g) as [g4 woken] end.
    replace (sem_of (globals r)) with
      (sem_of (log (output_block "=== stderr" err)
         (log (output_block "=== stdout" out)
            (log [FinishedIn (completed_tasks r + 1) (total_tasks r) task
                    seconds] (globals r))))) by (by destruct (globals r)).
    rewrite Hsem. cbn [option_map globals tasks procs fst] in *.
    rewrite Hcon.
    assert (Hsum : omap bare_line
      (if fires (log (output_block "=== stderr" err)
            (log (output_block "=== stdout" out)
               (log [FinishedIn (completed_tasks r + 1) (total_tasks r) task
                       seconds] (globals r))))
       then summary_lines now end_time
              (log (output_block "=== stderr" err)
                 (log (output_block "=== stdout" out)
                    (log [FinishedIn (completed_tasks r + 1) (total_tasks r)
                            task seconds] (globals r))))
       else []) = []) by (by destruct (fires _)).
    rewrite omap_app, Hsum, app_nil_r.
    destruct (globals r); cbn.
    rewrite !omap_app, !bare_line_block. cbn. by rewrite <- !app_assoc.
Qed.

Lemma bare_run_events evs : forall r,
  Bare.run_events evs (bare_of r) = option_map bare_of (run_events evs r).
Proof.
  induction evs as [|e evs IH]; intros r; [done|].
  cbn [Bare.run_events run_events]. rewrite bare_step.
  destruct (step e r) as [r1|]; cbn [option_map]; [apply IH|done].
Qed.

End BareRuns.

(** * What a step adds to the console *)

Section Console.

Implicit Types (r : run) (evs : list event).

Lemma release_completion now end_time s :
  exists extra,
    console (fst (releaseSlot now end_time s)) = console s ++ extra
    /\ completion extra (uptime_interval s)
         (uptime_interval (fst (releaseSlot now end_time s))).
Proof.
  destruct s as [tot av st [|w rest] tet ui con]; unfold releaseSlot; cbn.
  - destruct (av + 1 =? tot); cbn.
    + eexists; split; [done|]. right. eauto.
    + exists []. rewrite app_nil_r. split; [done|]. by left.
  - exists []. rewrite app_nil_r. split; [done|]. by left.
Qed.

Lemma step_inv e r r' : step e r = Some r' -> step_shape r r' e.
Proof.
  destruct e as [idx|idx o seconds now end_time]; cbn [step].
  - unfold callback_resume.
    destruct (procs r !! idx) as [[]|] eqn:Hp; try done.
    destruct (tasks r !! idx) as [task|] eqn:Ht; try done.
    intros [= <-]. econstructor; try done; by destruct (globals r).
  - unfold callback_settle.
    destruct (procs r !! idx) as [[]|] eqn:Hp; try done.
    destruct (tasks r !! idx) as [task|] eqn:Ht; try done.
    destruct o as [out err|]; [|intros [= <-]; by constructor].
    match goal with |- context [releaseSlot now end_time ?g] =>
      destruct (release_completion now end_time g) as (extra & Hcon & Hc);
      pose proof (releaseSlot_sem now end_time g) as Hsem;
      destruct (releaseSlot now end_time g) as [g4 woken] end.
    intros [= <-]. cbn [fst] in *.
    eapply (shape_fulfil _ _ _ _ _ _ _ _ task extra); try done.
    + cbn [globals]. rewrite Hcon. destruct (globals r); cbn.
      by rewrite <- !app_assoc.
    + cbn [procs globals]. f_equal.
      unfold Bare.releaseSlot, sem_of in Hsem. cbn in Hsem.
      destruct (globals r) as [tot av st [|w rest] tet ui con]; cbn in *;
        congruence.
Qed.

Lemma finished_app l1 l2 :
  finished_indices (l1 ++ l2) = finished_indices l1 ++ finished_indices l2.
Proof. apply omap_app. Qed.

Lemma started_app l1 l2 :
  started_indices (l1 ++ l2) = started_indices l1 ++ started_indices l2.
Proof. apply omap_app. Qed.

Lemma finished_block header text :
  finished_indices (output_block header text) = [].
Proof. unfold output_block. by destruct (String.eqb text ""). Qed.

Lemma started_block header text :
  started_indices (output_block header text) = [].
Proof. unfold output_block. by destruct (String.eqb text ""). Qed.

Lemma completion_plain extra a b :
  completion extra a b ->
  finished_indices extra = [] /\ started_indices extra = [].
Proof. by intros [[-> ->]|(d & u & -> & ->)]. Qed.

(** The numbers of the finished lines. *)
Lemma step_finished e r r' :
  step e r = Some r' ->
  finished_indices (console (globals r)) = seq 1 (completed_tasks r) ->
  finished_indices (console (globals r')) = seq 1 (completed_tasks r').
Proof.
  intros Hstep Hinv. destruct (step_inv _ _ _ Hstep)
    as [idx task _ _ Hcon _ Hc _|idx s n0 e0 _ Hg Hc _
       |idx out err s n0 e0 task extra _ _ Hcon Hx Hc _].
  - rewrite Hcon, Hc, finished_app, Hinv. cbn. by rewrite app_nil_r.
  - by rewrite Hg, Hc.
  - destruct (completion_plain _ _ _ Hx) as [Hf _].
    rewrite Hcon, Hc, seq_S, !finished_app, Hinv, Hf, !finished_block. cbn.
    do 2 f_equal. lia.
Qed.

Lemma run_events_finished evs : forall r r',
  run_events evs r = Some r' ->
  finished_indices (console (globals r)) = seq 1 (completed_tasks r) ->
  finished_indices (console (globals r')) = seq 1 (completed_tasks r').
Proof.
  induction evs as [|e evs IH]; intros r r' Hrun Hinv; cbn [run_events] in Hrun.
  - by injection Hrun as <-.
  - destruct (step e r) as [r1|] eqn:Hstep; [|done].
    eapply IH; [done|]. by eapply step_finished.
Qed.

Lemma step_timer e r r' : step e r = Some r' -> timer_inv r -> timer_inv r'.
Proof.
  intros Hstep Hinv. unfold timer_inv, summaries in *.
  destruct (step_inv _ _ _ Hstep)
    as [idx task _ _ Hcon Hi _ _|idx s n0 e0 _ Hg _ _
       |idx out err s n0 e0 task extra _ _ Hcon Hx _ _].
  - rewrite Hcon, Hi, count_app, count_cons, count_nil. cbn.
    rewrite !Nat.add_0_r. done.
  - by rewrite Hg.
  - rewrite Hcon, !count_app, !count_output_block, count_cons, count_nil. cbn.
    destruct Hx as [[-> ->]|(d & u & -> & ->)].
    + rewrite count_nil, !Nat.add_0_r. done.
    + right. split; [done|]. rewrite !count_cons. cbn. lia.
Qed.

Lemma run_events_timer evs : forall r r',
  run_events evs r = Some r' -> timer_inv r -> timer_inv r'.
Proof.
  induction evs as [|e evs IH]; intros r r' Hrun Hinv; cbn [run_events] in Hrun.
  - by injection Hrun as <-.
  - destruct (step e r) as [r1|] eqn:Hstep; [|done].
    eapply IH; [done|]. by eapply step_timer.
Qed.

End Console.

Section Started.

Implicit Types (r : run) (evs : list event).

Lemma started_update (ps : list status) j x y i :
  ps !! j = Some x -> has_started x = has_started y ->
  (exists st, <[j := y]> ps !! i = Some st /\ has_started st = true)
  <-> (exists st, ps !! i = Some st /\ has_started st = true).
Proof.
  intros Hj Hxy. destruct (decide (i = j)) as [->|Hne].
  - rewrite list_lookup_insert_eq by (by eapply lookup_lt_Some). rewrite Hj.
    split; intros (st & [= <-] & Hst); eexists; split; try done; congruence.
  - by rewrite list_lookup_insert_ne.
Qed.

Lemma starting_not_in_block header text i total task :
  ~ In (Starting i total task) (output_block header text).
Proof.
  unfold output_block. destruct (String.eqb text ""); cbn; [tauto|].
  intros [?|[?|[?|[]]]]; done.
Qed.

Lemma step_started e r r' :
  run_ok r -> step e r = Some r' -> started_inv r -> started_inv r'.
Proof.
  intros Hok Hstep (Hnd & Hmem & Hline).
  destruct (step_static _ _ _ Hstep) as (_ & _ & Hts & Htt).
  unfold started_inv. rewrite Hts, Htt.
  destruct (step_inv _ _ _ Hstep)
    as [idx task Hp Ht Hcon _ _ Hps|idx s n0 e0 Hp Hg _ Hps
       |idx out err s n0 e0 task extra Hp Ht Hcon Hx _ Hps].
  - assert (Hfresh : (idx + 1)%nat ∉ started_indices (console (globals r))).
    { intros (i & st & Hi & Hst & Hs)%Hmem.
      assert (i = idx) as -> by lia. rewrite Hp in Hst.
      by injection Hst as <-. }
    rewrite Hcon, Hps, started_app. cbn [started_indices omap]. cbn.
    split_and!.
    + apply NoDup_app. split_and!; [done| |apply NoDup_singleton].
      intros x Hx ->%list_elem_of_singleton. done.
    + intros k. rewrite elem_of_app, list_elem_of_singleton, Hmem. split.
      * intros [(i & st & -> & Hst & Hs)| ->].
        -- exists i, st. split_and!; try done.
           rewrite list_lookup_insert_ne; [done|]. intros ->.
           rewrite Hp in Hst. by injection Hst as <-.
        -- exists idx, Running. split_and!; try done.
           apply list_lookup_insert_eq. by eapply lookup_lt_Some.
      * intros (i & st & -> & Hst & Hs).
        destruct (decide (i = idx)) as [->|Hne]; [by right|].
        left. rewrite list_lookup_insert_ne in Hst by done. eauto.
    + intros i total task' [Hin|Hin]%in_app_or; [by apply Hline|].
      destruct Hin as [[= <- <- <-]|[]]. eauto.
  - rewrite Hg, Hps. split_and!; try done.
    intros k. rewrite Hmem. split.
    + intros (i & st & -> & Hst). exists i.
      destruct (proj2 (started_update _ _ Running Failed i Hp eq_refl))
        as (st' & Hst'); eauto.
    + intros (i & st & -> & Hst). exists i.
      destruct (proj1 (started_update _ _ Running Failed i Hp eq_refl))
        as (st' & Hst'); eauto.
  - destruct (completion_plain _ _ _ Hx) as [_ Hs].
    rewrite Hcon, !started_app, !started_block, Hs. cbn. rewrite app_nil_r.
    assert (Hupd : forall i,
      (exists st, procs r' !! i = Some st /\ has_started st = true)
      <-> (exists st, procs r !! i = Some st /\ has_started st = true)).
    { intros i. rewrite Hps.
      rewrite <- (started_update _ _ Running Finished i Hp eq_refl).
      destruct (pending_tasks (globals r)) as [|w rest] eqn:Hpend; [done|].
      cbn [head resolve].
      destruct Hok as [[_ _ _ _ Hq _ _ _ _] _ _ _ _].
      assert (Hw : procs r !! w = Some Waiting).
      { apply Hq. rewrite Hpend. by left. }
      apply (started_update _ _ Waiting Granted); [|done].
      rewrite list_lookup_insert_ne; [done|]. intros ->. congruence. }
    split_and!; try done.
    + intros k. rewrite Hmem. split.
      * intros (i & st & -> & Hst). exists i.
        destruct (proj2 (Hupd i)) as (st' & Hst'); eauto.
      * intros (i & st & -> & Hst). exists i.
        destruct (proj1 (Hupd i)) as (st' & Hst'); eauto.
    + intros i total task' [Hin|Hin]%in_app_or; [by apply Hline|].
      destruct Hin as [?|Hin]; [done|].
      apply in_app_or in Hin as [Hin|Hin];
        [by apply starting_not_in_block in Hin|].
      apply in_app_or in Hin as [Hin|Hin];
        [by apply starting_not_in_block in Hin|].
      destruct Hx as [[-> _]|(d & u & -> & _)]; [done|].
      destruct Hin as [?|[?|[]]]; done.
Qed.

Lemma run_events_started evs : forall r r',
  run_ok r -> run_events evs r = Some r' -> started_inv r -> started_inv r'.
Proof.
  induction evs as [|e evs IH]; intros r r' Hok Hrun Hinv;
    cbn [run_events] in Hrun.
  - by injection Hrun as <-.
  - destruct (step e r) as [r1|] eqn:Hstep; [|done].
    eapply (IH r1); [by eapply step_ok|done|by eapply step_started].
Qed.

End Started.

(** * Further properties of the scheduler *)

(** X1. [schedule] grants a slot to the first [min n M] tasks of the list at
    once and queues the others in the order of the list; nothing is printed
    and nothing has completed when it returns. For [n <= 0] every task is
    queued. *)
Theorem schedule_grants_first n start ts :
  let k := Nat.min (Z.to_nat n) (length ts) in
  procs (schedule ts (init n start))
  = replicate k Granted ++ replicate (length ts - k) Waiting
  /\ pending_tasks (globals (schedule ts (init n start)))
     = seq k (length ts - k)
  /\ avail_slots (globals (schedule ts (init n start))) = n - Z.of_nat k
  /\ console (globals (schedule ts (init n start))) = []
  /\ completed_tasks (schedule ts (init n start)) = 0%nat.
Proof. by rewrite schedule_scheduled. Qed.



(** X3. On every task list and every sequence of events the bare scheduler
    is the extended one with the counters of the progress lines and the
    summary left out: both accept the same events, and the semaphore, the
    task statuses and the remaining console lines agree. *)
Theorem bare_scheduler_refines n start ts evs :
  Bare.run_events evs (Bare.schedule ts (Bare.mkState n []))
  = option_map bare_of (run_events evs (schedule ts (init n start))).
Proof. by rewrite (bare_schedule ts n start), bare_run_events. Qed.

(** X4. The bare scheduler keeps the slot accounting too: with capacity
    [n >= 1], in every state it reaches [avail_slots] lies between 0 and
    [n], [avail_slots] plus the tasks in possession of a slot is [n], and
    at most [n] commands run. *)
Theorem bare_concurrency_bound n ts evs b :
  1 <= n ->
  Bare.run_events evs (Bare.schedule ts (Bare.mkState n [])) = Some b ->
  0 <= Bare.avail_slots (Bare.sem b) <= n
  /\ Bare.avail_slots (Bare.sem b) + Z.of_nat (count holds_slot (Bare.procs b))
     = n
  /\ (Bare.pending_tasks (Bare.sem b) <> [] -> Bare.avail_slots (Bare.sem b) = 0)
  /\ Z.of_nat (count is_running (Bare.procs b)) <= n.
Proof.
  intros Hn Hb. rewrite (bare_schedule ts n 0), bare_run_events in Hb.
  destruct (run_events evs (schedule ts (init n 0))) as [r|] eqn:Hrun; [|done].
  injection Hb as <-.
  destruct (reachable _ _ _ _ _ Hn Hrun)
    as ([[Hcap Hav Hsl Hfull _ _ _ _ _] _ _ _ _] & Htot & _).
  pose proof (running_holds (procs r)).
  rewrite Htot in *.
  cbn [bare_of Bare.sem Bare.procs sem_of Bare.avail_slots Bare.pending_tasks].
  split_and!; try done; lia.
Qed.

Lemma bare_concurrency_bound_witness :
  Z.of_nat (count is_running [Running; Waiting]) <= 1.
Proof.
  refine (proj2 (proj2 (proj2
    (bare_concurrency_bound 1 ["a"; "b"] [Resume 0]
       (Bare.mkRun (Bare.mkState 0 [1%nat]) ["a"; "b"] [Running; Waiting]
                   [BareStarting "a"]) _ _)))); [lia|reflexivity].
Defined.

(** X5. The number shown by a finished line is the rank of the completion,
    not the position of the task: the finished lines on the console carry
    1, 2, ..., [completed_tasks], in that order. *)
Theorem finished_lines_count_up n start ts evs r :
  run_events evs (schedule ts (init n start)) = Some r ->
  finished_indices (console (globals r)) = seq 1 (completed_tasks r).
Proof.
  intros Hrun. eapply run_events_finished; [done|].
  by rewrite schedule_scheduled.
Qed.

Lemma finished_lines_count_up_witness :
  finished_indices
    [Starting 1 2 "a"; Starting 2 2 "b"; FinishedIn 1 2 "b" 3;
     FinishedIn 2 2 "a" 5; CompletedIn 9; Utilization (JFinite (1300 # 18))]
  = [1; 2]%nat.
Proof.
  refine (finished_lines_count_up 2 0 ["a"; "b"]
    [Resume 0; Resume 1; Settle 1 (Fulfilled "" "") 3 4 4;
     Settle 0 (Fulfilled "" "") 5 9 9]
    (mkRun (mkState 2 2 0 [] [4; 9] false
              [Starting 1 2 "a"; Starting 2 2 "b"; FinishedIn 1 2 "b" 3;
               FinishedIn 2 2 "a" 5; CompletedIn 9;
               Utilization (JFinite (1300 # 18))])
           ["a"; "b"] 2 2 [Finished; Finished]) _).
  reflexivity.
Defined.

(** X6. No task is announced twice: the starting lines on the console carry
    distinct numbers, a number [i + 1] is there exactly when task [i] has
    been handed to [exec], and each starting line shows the command at that
    position of the list and the length of the list. *)
Theorem started_lines_once n start ts evs r :
  1 <= n ->
  run_events evs (schedule ts (init n start)) = Some r ->
  NoDup (started_indices (console (globals r)))
  /\ (forall k, k ∈ started_indices (console (globals r)) <->
                exists i st, k = (i + 1)%nat /\ procs r !! i = Some st
                             /\ has_started st = true)
  /\ (forall i total task,
        In (Starting i total task) (console (globals r)) ->
        total = length ts
        /\ exists j, i = (j + 1)%nat /\ ts !! j = Some task).
Proof.
  intros Hn Hrun.
  destruct (reachable _ _ _ _ _ Hn Hrun) as (_ & _ & _ & Hts & Htt).
  assert (Hinv : started_inv r).
  { apply (run_events_started evs (schedule ts (init n start)));
      [by apply schedule_ok|done|].
    rewrite schedule_scheduled. unfold started_inv, scheduled; cbn.
    split_and!.
    - apply NoDup_nil_2.
    - intros k. split; [by intros ?%elem_of_nil|].
      intros (i & st & _ & Hst & Hs).
      apply lookup_app_Some in Hst as [Hst|[_ Hst]];
        apply lookup_replicate_1 in Hst as [-> _]; done.
    - by intros i total task []. }
  destruct Hinv as (Hnd & Hmem & Hline). rewrite Hts, Htt in Hline. done.
Qed.

Lemma started_lines_once_witness :
  NoDup (started_indices [Starting 1 2 "a"; Starting 2 2 "b"]).
Proof.
  refine (proj1 (started_lines_once 2 0 ["a"; "b"] [Resume 0; Resume 1]
    (mkRun (mkState 2 0 0 [] [] true [Starting 1 2 "a"; Starting 2 2 "b"])
           ["a"; "b"] 2 0 [Running; Running]) _ _)); [lia|reflexivity].
Defined.

(** X7. The interval timer of the liveness report is cleared by [fin] and by
    nothing else: in every state of a run of at least one task it is armed
    exactly when fewer than all tasks have completed. *)
Theorem timer_cleared_at_completion n start ts evs r :
  1 <= n -> ts <> [] ->
  run_events evs (schedule ts (init n start)) = Some r ->
  uptime_interval (globals r) = negb (completed_tasks r =? length ts)%nat.
Proof.
  intros Hn Hts Hrun.
  destruct (reachable _ _ _ _ _ Hn Hrun) as (Hok & _ & _ & _ & Htt).
  assert (Htimer : timer_inv r).
  { eapply run_events_timer; [done|]. rewrite schedule_scheduled. by left. }
  assert (HM : (0 < length ts)%nat) by (destruct ts; [done|simpl; lia]).
  pose proof (accounting r Hok) as Hacc.
  destruct Hok as [_ _ _ Hfired Hquiet]. rewrite Htt in *.
  unfold timer_inv in Htimer.
  destruct (Nat.eqb_spec (completed_tasks r) (length ts)) as [Heq|Hne];
    cbn [negb].
  - specialize (Hfired Heq HM).
    destruct Htimer as [[_ Hs]|[Hi _]]; [congruence|done].
  - assert (Hz : summaries r = 0%nat) by (apply Hquiet; lia).
    destruct Htimer as [[Hi _]|[_ Hs]]; [done|]. rewrite Hz in Hs. lia.
Qed.

Lemma timer_cleared_at_completion_witness :
  uptime_interval
    (mkState 1 1 0 [] [2000] false
       [Starting 1 2 "a"; FinishedIn 1 2 "a" 1; Starting 2 2 "b";
        FinishedIn 2 2 "b" 1; CompletedIn 2000;
        Utilization (JFinite (200000 # 2000))])
  = false.
Proof.
  refine (timer_cleared_at_completion 1 0 ["a"; "b"]
    [Resume 0; Settle 0 (Fulfilled "" "") 1 1000 1000; Resume 1;
     Settle 1 (Fulfilled "" "") 1 2000 2000]
    (mkRun (mkState 1 1 0 [] [2000] false
              [Starting 1 2 "a"; FinishedIn 1 2 "a" 1; Starting 2 2 "b";
               FinishedIn 2 2 "b" 1; CompletedIn 2000;
               Utilization (JFinite (200000 # 2000))])
           ["a"; "b"] 2 2 [Finished; Finished]) _ _ _);
    [lia|discriminate|reflexivity].
Defined.

(** X8. [fin] charges idle time only to slots that were released: a single
    task on any number [n >= 1] of slots, released at the reading [fin]
    takes, is reported as a utilization of 100, the [n - 1] slots that never
    held a task notwithstanding. *)
Theorem unused_slots_count_as_used n start task out err seconds t :
  1 <= n -> start < t ->
  exists r1 q,
    run_events [Resume 0; Settle 0 (Fulfilled out err) seconds t t]
               (schedule [task] (init n start)) = Some r1
    /\ In (Utilization (JFinite q)) (console (globals r1))
    /\ (q == 100)%Q
    /\ summaries r1 = 1%nat.
Proof.
  intros Hn Hlt.
  set (a := (t - start) * n).
  assert (Ha : 0 < a) by (unfold a; nia).
  exists (mkRun
    (mkState n n start [] [t] false
       ((([Starting 1 1 task; FinishedIn 1 1 task seconds]
            ++ output_block "=== stdout" out)
           ++ output_block "=== stderr" err)
          ++ [CompletedIn (t - start);
              Utilization (JFinite (inject_Z a / inject_Z a * 100))]))
    [task] 1 1 [Finished]),
    (inject_Z a / inject_Z a * 100)%Q.
  split_and!.
  - rewrite schedule_scheduled. unfold scheduled.
    replace (Nat.min (Z.to_nat n) (length [task])) with 1%nat
      by (cbn [length]; lia).
    cbn. unfold callback_settle; cbn. unfold releaseSlot, log; cbn.
    replace (n - Z.of_nat 1 + 1) with n by lia. rewrite Z.eqb_refl.
    unfold fin, utilization_of, unused_area_of, js_div; cbn.
    replace ((t - start) * n - (0 + (t - t))) with a by (unfold a; lia).
    fold a. destruct (Z.eqb_spec a 0) as [?|_]; [lia|]. done.
  - cbn [globals console]. apply in_or_app. right. right. by left.
  - by apply pct_full.
  - unfold summaries; cbn [globals console].
    rewrite !count_app, !count_output_block, !count_cons, !count_nil. done.
Qed.

Lemma unused_slots_count_as_used_witness :
  exists r1 q,
    run_events [Resume 0; Settle 0 (Fulfilled "" "") 1 1000 1000]
               (schedule ["sleep 1"] (init 4 0)) = Some r1
    /\ In (Utilization (JFinite q)) (console (globals r1))
    /\ (q == 100)%Q
    /\ summaries r1 = 1%nat.
Proof.
  refine (unused_slots_count_as_used 4 0 "sleep 1" "" "" 1 1000 _ _); lia.
Defined.

(** * Durations, timestamps and reports *)

Section Texts.

Implicit Types (s : string) (z : Z).

Lemma length_append s1 s2 :
  String.length (s1 ++ s2) = (String.length s1 + String.length s2)%nat.
Proof.
  induction s1 as [|c s1 IH]; [done|].
  change (String c s1 +:+ s2) with (String c (s1 +:+ s2)).
  cbn [String.length]. by rewrite IH.
Qed.

Lemma string_app_assoc s1 s2 s3 :
  ((s1 ++ s2) ++ s3 = s1 ++ (s2 ++ s3))%string.
Proof.
  induction s1 as [|c s1 IH]; [done|].
  change (String c s1 +:+ s2) with (String c (s1 +:+ s2)).
  change (String c (s1 +:+ s2) +:+ s3) with (String c ((s1 +:+ s2) +:+ s3)).
  by rewrite IH.
Qed.

Lemma has_break_append s1 s2 :
  has_break (s1 ++ s2) = has_break s1 || has_break s2.
Proof.
  induction s1 as [|c s1 IH]; [done|].
  change (String c s1 +:+ s2) with (String c (s1 +:+ s2)).
  cbn [has_break]. by rewrite IH, orb_assoc.
Qed.

Lemma digits_no_break d : has_break (NilEmpty.string_of_uint d) = false.
Proof. induction d; cbn; done. Qed.

Lemma toString_no_break z : has_break (toString z) = false.
Proof.
  unfold toString, NilZero.string_of_int, NilZero.string_of_uint.
  destruct (Z.to_int z) as [d|d]; destruct d; cbn; try done;
    apply digits_no_break.
Qed.

Lemma zeroPadString_no_break z : has_break (zeroPadString z) = false.
Proof.
  unfold zeroPadString. rewrite has_break_append, toString_no_break.
  by destruct (_ <? _)%nat.
Qed.

Lemma getTimestamp_no_break t : has_break (getTimestamp t) = false.
Proof.
  unfold getTimestamp. cbn zeta.
  repeat (rewrite has_break_append || rewrite zeroPadString_no_break).
  done.
Qed.

(** Checked on every number of the range. *)
Lemma pad_two z :
  0 <= z < 100 -> String.length (zeroPadString z) = 2%nat.
Proof.
  intros Hz.
  assert (Hall : forallb (fun k => (String.length (zeroPadString k) =? 2)%nat)
                         (seqZ 0 100) = true)
    by (vm_compute; reflexivity).
  rewrite forallb_forall in Hall.
  apply Nat.eqb_eq, Hall, list_elem_of_In, elem_of_seqZ. lia.
Qed.

Lemma pad_year z :
  1000 <= z <= 9999 -> String.length (zeroPadString z) = 4%nat.
Proof.
  intros Hz.
  assert (Hall : forallb (fun k => (String.length (zeroPadString k) =? 4)%nat)
                         (seqZ 1000 9000) = true)
    by (vm_compute; reflexivity).
  rewrite forallb_forall in Hall.
  apply Nat.eqb_eq, Hall, list_elem_of_In, elem_of_seqZ. lia.
Qed.

Lemma strip_breaks_filter s :
  strip_breaks s = string_filter (fun c => negb (is_break c)) s.
Proof.
  unfold strip_breaks.
  induction s as [|c s IH]; [done|].
  cbn [strip_breaks_from string_filter]. rewrite prefix_cons.
  destruct (Ascii.eqb_spec CR c) as [<-|Hcr].
  - cbn [andb]. replace (is_break CR) with true by done. cbn [negb].
    destruct s as [|c' s']; [done|].
    rewrite prefix_cons.
    replace (String.prefix "" s') with true by (by destruct s').
    rewrite andb_true_r.
    destruct (Ascii.eqb_spec "010"%char c') as [<-|Hlf].
    + cbn [strip_breaks_from]. rewrite <- IH.
      cbn [strip_breaks_from]. rewrite prefix_cons. done.
    + done.
  - cbn [andb]. unfold is_break, LF.
    destruct (Ascii.eqb_spec c "010"%char) as [->|Hlf]; [done|].
    destruct (Ascii.eqb_spec c CR) as [->|_]; [done|].
    cbn [orb negb]. by rewrite IH.
Qed.

Lemma filter_no_break s :
  has_break (string_filter (fun c => negb (is_break c)) s) = false.
Proof.
  induction s as [|c s IH]; [done|]. cbn.
  destruct (is_break c) eqn:Hc; cbn; [done|]. by rewrite Hc.
Qed.

End Texts.

(** X9. For a whole number of seconds of the safe range (below [2^53],
    where the source's arithmetic on doubles is exact),
    [getDurationString] prints the hours
    when there is at least one, the minutes of the rest when there is at
    least one, and then the seconds left (below 60), so that a part that is
    zero is left out except for the seconds; the extended variant prints the
    seconds with two decimals. *)
Theorem duration_has_three_parts (whole : safe_integer) :
  0 <= value whole ->
  Bare.getDurationString whole
  = duration_text (value whole / 3600) (value whole mod 3600 / 60)
                  (toString (value whole mod 60))
  /\ getDurationString whole
     = duration_text (value whole / 3600) (value whole mod 3600 / 60)
                     (toFixed2 (value whole mod 60)).
Proof.
  destruct whole as [seconds Hsafe]. cbn [value]. intros Hs.
  assert (Hparts :
    (3600 <= seconds /\ 0 < seconds / 3600 \/
     seconds < 3600 /\ seconds / 3600 = 0 /\ seconds mod 3600 = seconds)
    /\ (60 <= seconds mod 3600 /\ 0 < seconds mod 3600 / 60 \/
        seconds mod 3600 < 60 /\ seconds mod 3600 / 60 = 0
        /\ seconds mod 60 = seconds mod 3600)
    /\ seconds mod 3600 mod 60 = seconds mod 60).
  { Z.div_mod_to_equations. lia. }
  destruct Hparts as (Hh & Hm & Hmod).
  unfold Bare.getDurationString, getDurationString, duration_text.
  cbn [value].
  destruct Hh as [[Hh1 Hh2]|(Hh1 & Hh2 & Hh3)].
  - destruct (Z.leb_spec 3600 seconds); [|lia].
    destruct (Z.ltb_spec 0 (seconds / 3600)); [|lia].
    destruct Hm as [[Hm1 Hm2]|(Hm1 & Hm2 & Hm3)].
    + destruct (Z.leb_spec 60 (seconds mod 3600)); [|lia].
      destruct (Z.ltb_spec 0 (seconds mod 3600 / 60)); [|lia].
      rewrite Hmod, !string_app_assoc. done.
    + destruct (Z.leb_spec 60 (seconds mod 3600)); [lia|].
      rewrite Hm2, Hm3, !string_app_assoc. done.
  - destruct (Z.leb_spec 3600 seconds); [lia|].
    rewrite Hh2, Hh3. cbn [Z.ltb Z.compare].
    destruct Hm as [[Hm1 Hm2]|(Hm1 & Hm2 & Hm3)]; rewrite Hh3 in *.
    + destruct (Z.leb_spec 60 seconds); [|lia].
      destruct (Z.ltb_spec 0 (seconds / 60)); [|lia].
      rewrite !string_app_assoc. done.
    + destruct (Z.leb_spec 60 seconds); [lia|].
      rewrite Hm2, Hm3. done.
Qed.

Lemma duration_has_three_parts_witness :
  Bare.getDurationString (mkSafe 3605 eq_refl) = "1h5s"
  /\ getDurationString (mkSafe 7325 eq_refl) = "2h2m5.00s".
Proof.
  destruct (duration_has_three_parts (mkSafe 3605 eq_refl) ltac:(cbn; lia))
    as [H1 _].
  destruct (duration_has_three_parts (mkSafe 7325 eq_refl) ltac:(cbn; lia))
    as [_ H2].
  split; [exact H1|exact H2].
Defined.

Lemma length_two (s : string) :
  String.length s = 2%nat -> exists a b, s = String a (String b "").
Proof. destruct s as [|a [|b [|c s]]]; try done. by exists a, b. Qed.

Lemma length_four (s : string) :
  String.length s = 4%nat ->
  exists a b c d, s = String a (String b (String c (String d ""))).
Proof.
  destruct s as [|a [|b [|c [|d [|e s]]]]]; try done. by exists a, b, c, d.
Qed.

(** X10. For a date of the years 1000 to 9999 the timestamp has the fixed
    width of 21 characters and each field at a fixed column: the day of the
    month at columns 1-2, the month counted from 1 ([getMonth() + 1]) at
    columns 4-5, the year at columns 7-10, the hour, the minute and the
    second at columns 12-13, 15-16 and 18-19, each as [zeroPadString] prints
    it, between the brackets and separators of the source. *)
Theorem timestamp_width t :
  1 <= getDate t <= 31 -> 0 <= getMonth t <= 11 ->
  1000 <= getFullYear t <= 9999 ->
  0 <= getHours t <= 23 -> 0 <= getMinutes t <= 59 ->
  0 <= getSeconds t <= 59 ->
  String.length (getTimestamp t) = 21%nat
  /\ substring 1 2 (getTimestamp t) = zeroPadString (getDate t)
  /\ substring 4 2 (getTimestamp t) = zeroPadString (getMonth t + 1)
  /\ substring 7 4 (getTimestamp t) = zeroPadString (getFullYear t)
  /\ substring 12 2 (getTimestamp t) = zeroPadString (getHours t)
  /\ substring 15 2 (getTimestamp t) = zeroPadString (getMinutes t)
  /\ substring 18 2 (getTimestamp t) = zeroPadString (getSeconds t)
  /\ map (fun i => substring i 1 (getTimestamp t)) [0; 3; 6; 11; 14; 17; 20]%nat
     = ["["; "-"; "-"; " "; ":"; ":"; "]"]%string.
Proof.
  intros Hd Hmo Hy Hh Hmi Hs. unfold getTimestamp. cbn zeta.
  destruct (length_two _ (pad_two (getDate t) ltac:(lia))) as (d1 & d2 & ->).
  destruct (length_two _ (pad_two (getMonth t + 1) ltac:(lia)))
    as (m1 & m2 & ->).
  destruct (length_four _ (pad_year (getFullYear t) ltac:(lia)))
    as (y1 & y2 & y3 & y4 & ->).
  destruct (length_two _ (pad_two (getHours t) ltac:(lia))) as (h1 & h2 & ->).
  destruct (length_two _ (pad_two (getMinutes t) ltac:(lia)))
    as (i1 & i2 & ->).
  destruct (length_two _ (pad_two (getSeconds t) ltac:(lia)))
    as (s1 & s2 & ->).
  split_and!; reflexivity.
Qed.

Lemma timestamp_width_witness :
  substring 4 2 (getTimestamp (mkDate 2 10 2026 9 5 0)) = "11"%string.
Proof.
  refine (eq_trans (proj1 (proj2 (proj2
    (timestamp_width (mkDate 2 10 2026 9 5 0) _ _ _ _ _ _)))) _);
    [cbn; lia ..|reflexivity].
Defined.

(** X11. [asyncExec] returns the standard output with every carriage return
    and line feed removed and all other characters kept in order, so that
    the report of [begin()] and of [uptime()] is a single line without a
    line break, whatever the command printed and whatever the date; after a
    rejection nothing is printed. *)
Theorem report_is_one_line now stdout stderr :
  asyncExec (Fulfilled stdout stderr)
  = Some (string_filter (fun c => negb (is_break c)) stdout)
  /\ (exists text, begin now (Fulfilled stdout stderr) = [Text text]
                   /\ uptime now (Fulfilled stdout stderr) = [Text text]
                   /\ has_break text = false)
  /\ begin now Rejected = [] /\ uptime now Rejected = [].
Proof.
  split_and!; try done.
  - cbn. by rewrite strip_breaks_filter.
  - eexists. split_and!; try done.
    rewrite !has_break_append, getTimestamp_no_break. cbn.
    by rewrite strip_breaks_filter, filter_no_break.
Qed.

(** * Further properties of the workload expansion *)

Section Expansion.

Implicit Types (l s rest : string) (lines tasks defines : list string).

Lemma split_plain s : has_eol s = false -> split EOL s = [s].
Proof.
  induction s as [|c s IH]; intros Hs; [done|].
  cbn [has_eol] in Hs. apply orb_false_elim in Hs as [Hc Hs].
  by rewrite split_cons, Hc, IH.
Qed.

Lemma split_with_last lines last :
  Forall (fun l => has_eol l = false) lines -> has_eol last = false ->
  split EOL (with_last lines last) = lines ++ [last].
Proof.
  intros Hall Hlast. induction Hall as [|l lines Hl _ IH].
  - by apply split_plain.
  - cbn [with_last fold_right]. rewrite split_line by done.
    fold (with_last lines last). by rewrite IH.
Qed.

Lemma Forall_removelast {A} (P : A -> Prop) (l : list A) :
  Forall P l -> Forall P (removelast l).
Proof.
  induction 1 as [|x l Hx Hl IH]; [done|].
  cbn [removelast]. destruct l; [constructor|]. by constructor.
Qed.

Lemma Forall_filter_bool {A} (P : A -> Prop) (p : A -> bool) (l : list A) :
  Forall P l -> Forall P (List.filter p l).
Proof.
  induction 1 as [|x l Hx Hl IH]; [done|].
  cbn [List.filter]. destruct (p x); [by constructor|done].
Qed.




Lemma In_set_add defines d x :
  In x (set_add defines d) <-> In x defines \/ x = d.
Proof.
  unfold set_add. destruct (existsb (String.eqb d) defines) eqn:He.
  - apply existsb_exists in He as (y & Hy & ->%String.eqb_eq).
    split; [by left|]. by intros [?| ->].
  - rewrite in_app_iff. cbn. intuition congruence.
Qed.

Lemma NoDup_set_add defines d :
  NoDup defines -> NoDup (set_add defines d).
Proof.
  intros Hnd. unfold set_add.
  destruct (existsb (String.eqb d) defines) eqn:He; [done|].
  apply NoDup_app. split_and!; [done| |apply NoDup_singleton].
  intros x Hx ->%list_elem_of_singleton.
  assert (existsb (String.eqb d) defines = true); [|congruence].
  apply existsb_exists. exists d. split; [by apply list_elem_of_In|].
  apply String.eqb_refl.
Qed.

Lemma fold_set_add new : forall defines,
  (NoDup defines -> NoDup (fold_left set_add new defines))
  /\ (forall x, In x (fold_left set_add new defines)
                <-> In x defines \/ In x new).
Proof.
  induction new as [|d new IH]; intros defines; cbn [fold_left].
  - split; [done|]. intros x. cbn. tauto.
  - destruct (IH (set_add defines d)) as [IHn IHi]. split.
    + intros Hnd. by apply IHn, NoDup_set_add.
    + intros x. rewrite IHi, In_set_add. cbn. intuition congruence.
Qed.

Lemma take_upper_all s : all_upper (take_upper s) = true.
Proof.
  induction s as [|c s IH]; [done|]. cbn.
  destruct (is_upper c) eqn:Hc; [|done]. cbn. by rewrite Hc.
Qed.

Lemma match_defines_names s : forall skip d,
  In d (match_defines_from skip s) -> d <> "" /\ all_upper d = true.
Proof.
  induction s as [|c s IH]; intros skip d Hd; [done|].
  cbn [match_defines_from] in Hd. destruct skip as [|k]; [|by eapply IH].
  destruct (Ascii.eqb c "@"); [|by eapply IH].
  destruct (take_upper s) as [|c' name] eqn:Hname; [by eapply IH|].
  destruct Hd as [<-|Hd]; [|by eapply IH].
  split; [done|]. rewrite <- Hname. apply take_upper_all.
Qed.

Lemma extract_fold tasks : forall defines,
  (NoDup defines ->
   NoDup (fold_left (fun defines line =>
                       fold_left set_add (match_defines line) defines)
                    tasks defines))
  /\ (forall x,
        In x (fold_left (fun defines line =>
                           fold_left set_add (match_defines line) defines)
                        tasks defines)
        <-> In x defines \/ exists line, In line tasks
                                         /\ In x (match_defines line)).
Proof.
  induction tasks as [|t tasks IH]; intros defines; cbn [fold_left].
  - split; [done|]. intros x. split; [by left|].
    by intros [?|(line & [] & _)].
  - destruct (IH (fold_left set_add (match_defines t) defines)) as [IHn IHi].
    destruct (fold_set_add (match_defines t) defines) as [Hn Hi]. split.
    + intros Hnd. by apply IHn, Hn.
    + intros x. rewrite IHi, Hi. split.
      * intros [[?|?]|(line & Hl & Hx)]; [by left| |].
        -- right. exists t. split; [by left|done].
        -- right. exists line. split; [by right|done].
      * intros [?|(line & [<-|Hl] & Hx)]; [by left; left|by left; right|].
        right. by exists line.
Qed.

End Expansion.

(** X12. [tasks.pop()] removes the last piece whatever it is: when the text
    does not end with the line terminator, the last line that is not a
    comment is lost (in the bare variant, the last line), and a text that is
    empty gives no task. *)
Theorem last_piece_is_dropped argv1 lines last args :
  Forall (fun l => has_eol l = false /\ match_defines l = []) (lines ++ [last]) ->
  setupWorkload argv1 (with_last lines last) args
  = Returned (removelast (List.filter not_comment (lines ++ [last])))
  /\ Bare.setupWorkload argv1 (with_last lines last) args = Returned lines.
Proof.
  intros Hall.
  assert (Heol : Forall (fun l => has_eol l = false) (lines ++ [last]))
    by (eapply Forall_impl; [exact Hall|]; by intros ? []).
  assert (Hpl : Forall (fun l => match_defines l = []) (lines ++ [last]))
    by (eapply Forall_impl; [exact Hall|]; by intros ? []).
  apply Forall_app in Heol as [Heol Hlast].
  apply Forall_cons in Hlast as [Hlast _].
  unfold setupWorkload, Bare.setupWorkload, pop.
  rewrite split_with_last by done. split.
  - apply expand_tasks_plain. by apply Forall_removelast, Forall_filter_bool.
  - rewrite removelast_last. apply expand_tasks_plain.
    by apply Forall_app in Hpl as [? _].
Qed.

Lemma last_piece_is_dropped_witness :
  setupWorkload "pmanage.js" (with_last ["sleep 1"] "# the end") ∅
  = Returned []
  /\ Bare.setupWorkload "pmanage.js" (with_last ["sleep 1"] "sleep 2") ∅
     = Returned ["sleep 1"].
Proof.
  split.
  - refine (proj1 (last_piece_is_dropped "pmanage.js" ["sleep 1"] "# the end"
                     ∅ _)). repeat constructor.
  - refine (proj2 (last_piece_is_dropped "pmanage.js" ["sleep 1"] "sleep 2"
                     ∅ _)). repeat constructor.
Defined.



(** X14. The placeholders extracted from a workload are pairwise distinct,
    and each is a non-empty run of capital letters matched in some line. *)
Theorem defines_are_distinct_capitals tasks d :
  NoDup (extract_defines tasks)
  /\ (In d (extract_defines tasks) ->
      d <> "" /\ all_upper d = true
      /\ exists line, In line tasks /\ In d (match_defines line)).
Proof.
  unfold extract_defines.
  destruct (extract_fold tasks []) as [Hnd Hin]. split.
  - apply Hnd, NoDup_nil_2.
  - intros [[]|(line & Hl & Hd)]%Hin.
    destruct (match_defines_names line 0 d Hd) as [? ?].
    split_and!; try done. by exists line.
Qed.

Lemma defines_are_distinct_capitals_witness :
  all_upper "N" = true.
Proof.
  refine (proj1 (proj2 (proj2 (defines_are_distinct_capitals
    ["echo @N @N"; "ls @N"] "N") _))). vm_compute. by left.
Defined.

Section More.

Implicit Types (r : run) (evs : list event).

Lemma find_first {A} (p : A -> bool) (l : list A) x :
  List.find p l = Some x ->
  exists l1 l2, l = l1 ++ x :: l2 /\ p x = true
                /\ forall y, In y l1 -> p y = false.
Proof.
  induction l as [|a l IH]; [done|]. cbn [List.find].
  destruct (p a) eqn:Ha.
  - intros [= ->]. exists [], l. split_and!; done.
  - intros (l1 & l2 & -> & Hx & Hl1)%IH. exists (a :: l1), l2.
    split_and!; try done. intros y [<-|Hy]; [done|by apply Hl1].
Qed.

Lemma step_pending e r r' :
  step e r = Some r' ->
  pending_tasks (globals r') = pending_tasks (globals r)
  \/ pending_tasks (globals r') = tail (pending_tasks (globals r)).
Proof.
  destruct e as [idx|idx o seconds now end_time]; cbn [step].
  - unfold callback_resume.
    destruct (procs r !! idx) as [[]|]; try done.
    destruct (tasks r !! idx) as [task|]; try done.
    intros [= <-]. left. by destruct (globals r).
  - unfold callback_settle.
    destruct (procs r !! idx) as [[]|]; try done.
    destruct (tasks r !! idx) as [task|]; try done.
    destruct o as [out err|]; [|intros [= <-]; by left].
    match goal with |- context [releaseSlot now end_time ?g] =>
      pose proof (releaseSlot_sem now end_time g) as Hsem;
      destruct (releaseSlot now end_time g) as [g4 woken] end.
    intros [= <-]. right. cbn [globals].
    unfold Bare.releaseSlot, sem_of in Hsem. cbn in Hsem.
    destruct (globals r) as [tot av st [|w rest] tet ui con]; cbn in *;
      congruence.
Qed.

Lemma step_queue_tail e r r' :
  step e r = Some r' -> queue_is_tail r -> queue_is_tail r'.
Proof.
  intros Hstep (k & Hk & Hq). unfold queue_is_tail.
  destruct (step_static _ _ _ Hstep) as (_ & _ & _ & ->).
  destruct (step_pending _ _ _ Hstep) as [-> | ->]; [by exists k|].
  rewrite Hq. destruct (total_tasks r - k)%nat as [|m] eqn:Hm.
  - exists k. by rewrite Hm.
  - exists (S k). split; [lia|]. cbn [seq tail]. f_equal. lia.
Qed.

Lemma run_events_queue_tail evs : forall r r',
  run_events evs r = Some r' -> queue_is_tail r -> queue_is_tail r'.
Proof.
  induction evs as [|e evs IH]; intros r r' Hrun Hinv; cbn [run_events] in Hrun.
  - by injection Hrun as <-.
  - destruct (step e r) as [r1|] eqn:Hstep; [|done].
    eapply IH; [done|]. by eapply step_queue_tail.
Qed.

End More.

(** X15. When the check fails, the placeholder named in the message is the
    first one, in the order of first appearance in the workload, that has
    no binding; the process ends with status 1 after the usage text. *)
Theorem first_missing_is_reported argv1 args tasks code out :
  expand_tasks argv1 args tasks = Exited code out ->
  exists before d after,
    extract_defines tasks = before ++ d :: after
    /\ (forall x, In x before -> is_Some (args !! x))
    /\ args !! d = None
    /\ code = 1
    /\ out = usage argv1 ++ [Text ("must supply define " ++ d)].
Proof.
  unfold expand_tasks.
  destruct (List.find _ (extract_defines tasks)) as [d|] eqn:Hfind; [|done].
  intros [= <- <-].
  apply find_first in Hfind as (before & after & Heq & Hd & Hbefore).
  exists before, d, after. split_and!; try done.
  - intros x Hx. specialize (Hbefore x Hx). unfold has_define in Hbefore.
    by destruct (args !! x).
  - unfold has_define in Hd. by destruct (args !! d).
Qed.

Lemma first_missing_is_reported_witness :
  exists before d after,
    extract_defines ["echo @A @B @C"] = before ++ d :: after
    /\ (forall x, In x before -> is_Some ((<["A" := "1"]> ∅ : gmap string string) !! x))
    /\ (<["A" := "1"]> ∅ : gmap string string) !! d = None
    /\ 1 = 1
    /\ usage "pmanage.js" ++ [Text "must supply define B"]
       = usage "pmanage.js" ++ [Text ("must supply define " ++ d)].
Proof.
  refine (first_missing_is_reported "pmanage.js" (<["A" := "1"]> ∅)
            ["echo @A @B @C"] 1
            (usage "pmanage.js" ++ [Text "must supply define B"]) _).
  reflexivity.
Defined.

(** X16. With no waiter queued, an acquire followed at once by a release
    leaves the semaphore as it was: the slot taken is given back, or the
    caller that had to wait is the one woken. Both variants. *)
Theorem acquire_then_release_restores id now end_time s b :
  pending_tasks s = [] -> Bare.pending_tasks b = [] ->
  sem_of (fst (releaseSlot now end_time (fst (acquireSlot id s)))) = sem_of s
  /\ snd (releaseSlot now end_time (fst (acquireSlot id s)))
     = (if 0 <? avail_slots s then None else Some id)
  /\ Bare.releaseSlot (fst (Bare.acquireSlot id b))
     = (b, if 0 <? Bare.avail_slots b then None else Some id).
Proof.
  intros Hs Hb.
  destruct s as [tot av st pend tet ui con], b as [bav bpend]; cbn in *.
  subst pend bpend. unfold acquireSlot, Bare.acquireSlot; cbn.
  split_and!.
  - destruct (0 <? av); unfold releaseSlot, sem_of; cbn; [|done].
    destruct (av - 1 + 1 =? tot); cbn; f_equal; lia.
  - destruct (0 <? av); unfold releaseSlot; cbn; [|done].
    by destruct (av - 1 + 1 =? tot).
  - destruct (0 <? bav); unfold Bare.releaseSlot; cbn; [|done].
    do 2 f_equal. lia.
Qed.

Lemma acquire_then_release_restores_witness :
  Bare.releaseSlot (fst (Bare.acquireSlot 7 (Bare.mkState 0 [])))
  = (Bare.mkState 0 [], Some 7%nat).
Proof.
  refine (proj2 (proj2 (acquire_then_release_restores 7 0 0 (init 0 0)
                          (Bare.mkState 0 []) _ _))); reflexivity.
Defined.

(** X17. Tasks leave the queue in the order of the workload: in every state
    of a run the queue holds the positions [k, ..., M - 1] of the task list
    in order, for some [k], and the tasks still waiting are exactly
    those. *)
Theorem queue_is_tail_of_workload n start ts evs r :
  1 <= n ->
  run_events evs (schedule ts (init n start)) = Some r ->
  exists k,
    (k <= length ts)%nat
    /\ pending_tasks (globals r) = seq k (length ts - k)
    /\ (forall i, procs r !! i = Some Waiting <-> (k <= i < length ts)%nat).
Proof.
  intros Hn Hrun.
  destruct (reachable _ _ _ _ _ Hn Hrun) as (Hok & _ & _ & _ & Htt).
  assert (Hq : queue_is_tail r).
  { eapply run_events_queue_tail; [done|].
    rewrite schedule_scheduled. unfold queue_is_tail, scheduled; cbn.
    exists (Nat.min (Z.to_nat n) (length ts)). split; [lia|done]. }
  destruct Hq as (k & Hk & Hq). rewrite Htt in *.
  exists k. split_and!; try done.
  intros i. destruct Hok as [[_ _ _ _ Hqueue _ _ _ _] _ _ _ _].
  rewrite <- Hqueue, Hq, elem_of_seq. lia.
Qed.

Lemma queue_is_tail_of_workload_witness :
  exists k,
    (k <= 3)%nat
    /\ [2%nat] = seq k (3 - k)
    /\ (forall i, [Running; Granted; Waiting] !! i = Some Waiting
                  <-> (k <= i < 3)%nat).
Proof.
  refine (queue_is_tail_of_workload 2 0 ["a"; "b"; "c"] [Resume 0]
    (mkRun (mkState 2 0 0 [2%nat] [] true [Starting 1 3 "a"])
           ["a"; "b"; "c"] 3 0 [Running; Granted; Waiting]) _ _);
    [lia|reflexivity].
Defined.
